(** * Verification of the regex-to-NFA builder (nfa.py)

    A shallow embedding of [nfa.py]: Python's object store is an explicit
    heap of [State] objects addressed by object identity, the module-level
    counter [current_label] is part of the world, and every function that
    allocates, mutates or raises lives in a state-and-exception monad. *)

From stdpp Require Import gmap list sets fin_maps relations.
From Stdlib Require Import ZArith.

Local Open Scope Z_scope.

(** ** Data model *)

(** A [chr] is identified with its code point. *)
Abbreviation symbol := N (only parsing).

(** [EPSILON = 'ε'] (U+03B5). *)
Definition EPSILON : symbol := 949%N.

(** Object identity of a [State]: its position in the heap, which is the
    order of allocation. *)
Abbreviation loc := nat (only parsing).

(** [class State]: [_label] holds the code point of [chr(current_label)],
    [transitions] is a [dict[chr, set[State]]]. *)
Record State := mkState {
  _label : Z;
  transitions : gmap symbol (gset loc)
}.

(** [class NFA]. *)
Record NFA := mkNFA {
  initial : loc;
  accepting : gset loc
}.

(** The mutable world: the global [current_label] and the heap of every
    [State] object created so far. *)
Record World := mkWorld {
  current_label : Z;
  heap : list State
}.

(** The world right after the module is loaded: [current_label = 65]. *)
Definition initial_world : World := mkWorld 65 [].

(** The exceptions the module can raise. [Diverged] stands for a
    [while] loop that has not finished within the fuel the model gives
    it; it is shown below that it never occurs. *)
Inductive exn :=
  | LabelsExhausted          (* "Cannot create more than 26 labels with labels enabled" *)
  | UnexpectedUnaryOpToken   (* "Unexpected unary op token" *)
  | UnexpectedBinaryOpToken  (* "Unexpected binary op token" *)
  | UnexpectedOperatorToken  (* "Unexpected operator token" *)
  | UnexpectedToken          (* "Unexpected token" *)
  | AssertionError
  | KeyError
  | NoneInitial              (* the product loop ended with [initial_state is None] *)
  | Diverged.

Inductive result (A : Type) :=
  | Ok (a : A)
  | Raise (e : exn).
Arguments Ok {A} a.
Arguments Raise {A} e.

(** Computations over the world. A raised exception keeps the world as it
    was when it was raised: Python does not roll anything back. *)
Definition M (A : Type) : Type := World → result A * World.

Definition ret {A} (a : A) : M A := λ w, (Ok a, w).
Definition raise {A} (e : exn) : M A := λ w, (Raise e, w).
Definition bind {A B} (m : M A) (f : A → M B) : M B :=
  λ w, match m w with
       | (Ok a, w') => f a w'
       | (Raise e, w') => (Raise e, w')
       end.

Global Instance M_ret : MRet M := @ret.
Global Instance M_bind : MBind M := λ A B f m, bind m f.

(** [for x in xs: body(x)]. *)
Fixpoint for_ {A} (xs : list A) (body : A → M unit) : M unit :=
  match xs with
  | [] => ret tt
  | x :: xs' => body x;; for_ xs' body
  end.

(** A loop that carries local variables [acc] from one iteration to the
    next. *)
Fixpoint for_acc {A S} (xs : list A) (acc : S) (body : S → A → M S) : M S :=
  match xs with
  | [] => ret acc
  | x :: xs' => acc' ← body acc x; for_acc xs' acc' body
  end.

(** A comprehension [[f(x) for x in xs]], evaluated left to right. *)
Fixpoint comprehension {A B} (xs : list A) (f : A → M B) : M (list B) :=
  match xs with
  | [] => ret []
  | x :: xs' => y ← f x; ys ← comprehension xs' f; ret (y :: ys)
  end.

(** Iteration order. Python iterates a [set] in an order that the
    language leaves open, and a [dict] in insertion order, which a finite
    map does not record. The model therefore takes the three orders as a
    parameter of which it knows only that each element comes exactly once. *)
Class IterOrder := {
  iter_states : gset loc → list loc;
  iter_states_perm X : iter_states X ≡ₚ elements X;
  iter_symbols : gset symbol → list symbol;
  iter_symbols_perm X : iter_symbols X ≡ₚ elements X;
  iter_items : gmap symbol (gset loc) → list (symbol * gset loc);
  iter_items_perm m : iter_items m ≡ₚ map_to_list m
}.

(** The order in which stdpp lists a set or a map is one such order. *)
Definition canonical_order : IterOrder :=
  {| iter_states := elements;
     iter_states_perm := λ X, reflexivity (elements X);
     iter_symbols := elements;
     iter_symbols_perm := λ X, reflexivity (elements X);
     iter_items := map_to_list;
     iter_items_perm := λ m, reflexivity (map_to_list m) |}.

(** ** The store *)

(** [state.transitions], read through a reference. *)
Definition transitions_of (h : list State) (s : loc) : gmap symbol (gset loc) :=
  match h !! s with
  | Some st => transitions st
  | None => ∅
  end.

(** [state.transitions.get(literal, set())]. *)
Definition delta (h : list State) (s : loc) (literal : symbol) : gset loc :=
  default ∅ (transitions_of h s !! literal).

(** [State.__init__]. *)
Definition State_init : M loc :=
  λ w, if decide (current_label w > 65 + 26)
       then (Raise LabelsExhausted, w)
       else (Ok (length (heap w)),
             {| current_label := current_label w + 1;
                heap := heap w ++ [ {| _label := current_label w;
                                       transitions := ∅ |} ] |}).

(** The update of the dictionary made by [State.add_transition]. *)
Definition add_to_table (literal : symbol) (to_state : loc)
    (tr : gmap symbol (gset loc)) : gmap symbol (gset loc) :=
  match tr !! literal with
  | None => <[literal := {[to_state]}]> tr
  | Some next_states => <[literal := next_states ∪ {[to_state]}]> tr
  end.

(** The heap after [self.add_transition(literal, to_state)]. An index
    outside the heap is not a reference to an object, and nothing
    changes there. *)
Definition add_edge (self : loc) (literal : symbol) (to_state : loc)
    (h : list State) : list State :=
  alter (λ st, {| _label := _label st;
                  transitions := add_to_table literal to_state (transitions st) |})
        self h.

(** [State.add_transition]. Both assertions hold by typing: a [loc] and
    a [symbol] are never [None]. *)
Definition add_transition (self : loc) (literal : symbol) (to_state : loc) : M unit :=
  λ w, (Ok tt,
        {| current_label := current_label w;
           heap := add_edge self literal to_state (heap w) |}).

(** Reading [state.transitions] in the current world. *)
Definition get_transitions (s : loc) : M (gmap symbol (gset loc)) :=
  λ w, (Ok (transitions_of (heap w) s), w).

(** ** Syntax trees *)

(** Modelled from the spec: the token classes of [regexp.tokens], which
    [nfa.py] imports and which are not part of the sources. The class
    names and their hierarchy are those of the import line and of the
    [isinstance] tests: [LiteralToken] and [OperatorToken] are
    [RegexToken]s, [UnaryOperatorToken] and [BinaryOperatorToken] are
    [OperatorToken]s, [KleeneStarToken] is unary, [ConcatToken],
    [UnionToken] and [IntersectionToken] are binary. The last four
    constructors stand for instances of a class the builder does not
    know: another unary operator, another binary operator, an operator
    that is neither, and a token that is neither literal nor operator. *)
Inductive RegexToken :=
  | LiteralToken (id : symbol)
  | UnionToken (left right : RegexToken)
  | IntersectionToken (left right : RegexToken)
  | ConcatToken (left right : RegexToken)
  | KleeneStarToken (target : RegexToken)
  | OtherUnaryOperatorToken (target : RegexToken)
  | OtherBinaryOperatorToken (left right : RegexToken)
  | OtherOperatorToken
  | OtherRegexToken.

(** [isinstance(token, UnaryOperatorToken)] and friends. *)
Definition is_UnaryOperatorToken (token : RegexToken) : bool :=
  match token with
  | KleeneStarToken _ | OtherUnaryOperatorToken _ => true
  | _ => false
  end.

Definition is_BinaryOperatorToken (token : RegexToken) : bool :=
  match token with
  | UnionToken _ _ | IntersectionToken _ _ | ConcatToken _ _
  | OtherBinaryOperatorToken _ _ => true
  | _ => false
  end.

Definition is_OperatorToken (token : RegexToken) : bool :=
  match token with
  | OtherOperatorToken => true
  | _ => is_UnaryOperatorToken token || is_BinaryOperatorToken token
  end.

(** ** The builder *)

(** [compute_pairs], at the only arity the module uses it with:
    [combinations] of two lists is the one couple of them, and [product]
    runs through the second list for each element of the first. *)
Definition compute_pairs {A} (xs ys : list A) : list (A * A) :=
  xs ≫= λ x, pair x <$> ys.

(** [d[k]] on a [dict[chr, set[State]]]. *)
Definition table_index (d : gmap symbol (gset loc)) (k : symbol) : M (gset loc) :=
  match d !! k with
  | Some v => ret v
  | None => raise KeyError
  end.

(** [product_states[(l, r)]]; the dictionary is kept as the list of its
    items in insertion order. *)
Fixpoint pairs_index (d : list ((loc * loc) * loc)) (k : loc * loc) : M loc :=
  match d with
  | [] => raise KeyError
  | (k', v) :: d' => if decide (k' = k) then ret v else pairs_index d' k
  end.

(** Number of (symbol, destination) couples in the tables of a heap; one
    more than this is the fuel given to the traversal. *)
Definition out_degree (tr : gmap symbol (gset loc)) : nat :=
  sum_list ((λ kv, size kv.2) <$> map_to_list tr).

Definition walk_fuel (h : list State) : nat :=
  S (sum_list ((λ st, out_degree (transitions st)) <$> h)).

Section Builder.
Context `{order : !IterOrder}.

(** The [while] loop of [NFA.collect_reachable_states]. The head of
    [stack] is the end of the Python list. *)
Fixpoint collect_loop (fuel : nat) (h : list State)
    (states : gset loc) (stack : list loc) : option (gset loc) :=
  match stack with
  | [] => Some states
  | state :: stack =>
      match fuel with
      | O => None
      | S fuel =>
          let states := {[state]} ∪ states in
          let stack :=
            foldl (λ stack '(literal, next_states),
                     foldl (λ stack next_state,
                              if decide (next_state ∈ states) then stack
                              else next_state :: stack)
                           stack (iter_states next_states))
                  stack (iter_items (transitions_of h state)) in
          collect_loop fuel h states stack
      end
  end.

(** The destinations of a state, in the order the traversal meets them. *)
Definition successors (h : list State) (state : loc) : list loc :=
  iter_items (transitions_of h state) ≫= λ item, iter_states item.2.

(** [NFA.collect_reachable_states]. *)
Definition collect_reachable_states (self : NFA) : M (gset loc) :=
  λ w, match collect_loop (walk_fuel (heap w)) (heap w) ∅ [initial self] with
       | Some states => (Ok states, w)
       | None => (Raise Diverged, w)
       end.

(** [parse_literal_token]. Local variables that would hide a field of
    [NFA] carry a prime. *)
Definition parse_literal_token (id : symbol) : M NFA :=
  initial' ← State_init;
  accepting' ← State_init;
  add_transition initial' id accepting';;
  ret (mkNFA initial' {[accepting']}).

(** Lines 43 to 47 of [parse_union_token], after both operands are built. *)
Definition union_of (left right : NFA) : M NFA :=
  initial' ← State_init;
  add_transition initial' EPSILON (initial left);;
  add_transition initial' EPSILON (initial right);;
  let accepting' := accepting left ∪ accepting right in
  ret (mkNFA initial' accepting').

(** One turn of the loop over [product_states.items()] in
    [parse_intersection_token]; [vars] are the local variables
    [initial_state] and [accepting_states]. *)
Definition product_step (left right : NFA)
    (product_states : list ((loc * loc) * loc))
    (vars : option loc * gset loc) (item : (loc * loc) * loc)
    : M (option loc * gset loc) :=
  let '(initial_state, accepting_states) := vars in
  let '((left_state, right_state), state) := item in
  initial_state ←
    (if decide (left_state = initial left ∧ right_state = initial right)
     then match initial_state with
          | None => ret (Some state)
          | Some _ => raise AssertionError
          end
     else ret initial_state);
  let accepting_states :=
    if decide (left_state ∈ accepting left ∧ right_state ∈ accepting right)
    then {[state]} ∪ accepting_states else accepting_states in
  left_tr ← get_transitions left_state;
  right_tr ← get_transitions right_state;
  let common_symbols := (dom left_tr ∩ dom right_tr) ∖ {[EPSILON]} in
  for_ (iter_symbols common_symbols) (λ symbol,
    left_tr ← get_transitions left_state;
    right_tr ← get_transitions right_state;
    left_next ← table_index left_tr symbol;
    right_next ← table_index right_tr symbol;
    for_ (compute_pairs (iter_states left_next) (iter_states right_next))
      (λ next, to_state ← pairs_index product_states next;
               add_transition state symbol to_state));;
  left_tr ← get_transitions left_state;
  right_tr ← get_transitions right_state;
  (if decide (EPSILON ∈ dom left_tr ∨ EPSILON ∈ dom right_tr)
   then
     for_ (compute_pairs
             (iter_states (default ∅ (left_tr !! EPSILON) ∪ {[left_state]}))
             (iter_states (default ∅ (right_tr !! EPSILON) ∪ {[right_state]})))
       (λ next, to_state ← pairs_index product_states next;
                add_transition state EPSILON to_state)
   else ret tt);;
  ret (initial_state, accepting_states).

(** Lines 58 to 80 of [parse_intersection_token], after both operands are
    built: the product construction. Python would return an automaton
    whose [initial] is [None] if no couple were the initial one; the model
    raises [NoneInitial] there instead. *)
Definition intersect (left right : NFA) : M NFA :=
  left_states ← collect_reachable_states left;
  right_states ← collect_reachable_states right;
  product_states ←
    comprehension (compute_pairs (iter_states left_states) (iter_states right_states))
      (λ pair, state ← State_init; ret (pair, state));
  '(initial_state, accepting_states) ←
    for_acc product_states (None, ∅) (product_step left right product_states);
  match initial_state with
  | Some initial_state => ret (mkNFA initial_state accepting_states)
  | None => raise NoneInitial
  end.

(** Lines 86 to 90 of [parse_concat_token]. *)
Definition concat_of (left right : NFA) : M NFA :=
  let initial' := initial left in
  let accepting' := accepting right in
  for_ (iter_states (accepting left))
    (λ accept, add_transition accept EPSILON (initial right));;
  ret (mkNFA initial' accepting').

(** Lines 94 to 100 of [parse_kleene_star_token]. *)
Definition kleene_star_of (root : NFA) : M NFA :=
  initial' ← State_init;
  let accepting' : gset loc := {[initial']} in
  add_transition initial' EPSILON (initial root);;
  for_ (iter_states (accepting root))
    (λ accept, add_transition accept EPSILON (initial root));;
  let accepting' := accepting' ∪ accepting root in
  ret (mkNFA initial' accepting').

(** The operator functions take the recursive call as an argument, so
    that [parse_regex_token] below is a structural recursion. *)
Definition parse_union_token (parse_regex_token : RegexToken → M NFA)
    (left right : RegexToken) : M NFA :=
  left ← parse_regex_token left;
  right ← parse_regex_token right;
  union_of left right.

Definition parse_intersection_token (parse_regex_token : RegexToken → M NFA)
    (left right : RegexToken) : M NFA :=
  left ← parse_regex_token left;
  right ← parse_regex_token right;
  intersect left right.

Definition parse_concat_token (parse_regex_token : RegexToken → M NFA)
    (left right : RegexToken) : M NFA :=
  left ← parse_regex_token left;
  right ← parse_regex_token right;
  concat_of left right.

Definition parse_kleene_star_token (parse_regex_token : RegexToken → M NFA)
    (target : RegexToken) : M NFA :=
  root ← parse_regex_token target;
  kleene_star_of root.

Definition parse_unary_op_token (parse_regex_token : RegexToken → M NFA)
    (token : RegexToken) : M NFA :=
  match token with
  | KleeneStarToken target => parse_kleene_star_token parse_regex_token target
  | _ => raise UnexpectedUnaryOpToken
  end.

Definition parse_binary_op_token (parse_regex_token : RegexToken → M NFA)
    (token : RegexToken) : M NFA :=
  match token with
  | ConcatToken l r => parse_concat_token parse_regex_token l r
  | UnionToken l r => parse_union_token parse_regex_token l r
  | IntersectionToken l r => parse_intersection_token parse_regex_token l r
  | _ => raise UnexpectedBinaryOpToken
  end.

Definition parse_operator_token (parse_regex_token : RegexToken → M NFA)
    (token : RegexToken) : M NFA :=
  if is_UnaryOperatorToken token then
    parse_unary_op_token parse_regex_token token
  else if is_BinaryOperatorToken token then
    parse_binary_op_token parse_regex_token token
  else raise UnexpectedOperatorToken.

Fixpoint parse_regex_token (token : RegexToken) : M NFA :=
  match token with
  | LiteralToken id => parse_literal_token id
  | _ =>
      if is_OperatorToken token then
        parse_operator_token parse_regex_token token
      else raise UnexpectedToken
  end.

End Builder.

(** ** Epsilon elimination *)

Section Elimination.
Context `{order : !IterOrder}.





End Elimination.

(** ** Notions the statements are about *)

(** A state that exists in the heap. *)
Definition allocated (h : list State) (s : loc) : Prop := (s < length h)%nat.

(** [t] is a destination of [s] under some symbol. *)
Definition edge (h : list State) (s t : loc) : Prop :=
  ∃ literal, t ∈ delta h s literal.

(** [t] can be reached from [s] by following transitions. *)
Definition reaches (h : list State) : relation loc := rtc (edge h).

(** Every destination in the heap is an allocated state. In Python a
    reference always points to an object, so every heap of the program
    is closed; in the model it is a property of the heap. *)
Definition closed (h : list State) : Prop :=
  ∀ s literal t, t ∈ delta h s literal → allocated h t.

(** [run h s word t]: the automaton can go from [s] to [t] reading
    [word], where a transition labelled [EPSILON] reads nothing and a
    transition labelled otherwise reads its label. *)
Inductive run (h : list State) : loc → list symbol → loc → Prop :=
  | run_stop s : run h s [] s
  | run_epsilon s t word u :
      t ∈ delta h s EPSILON → run h t word u → run h s word u
  | run_symbol s literal t word u :
      literal ≠ EPSILON → t ∈ delta h s literal → run h t word u →
      run h s (literal :: word) u.

(** The language of an automaton. *)
Definition accepts (h : list State) (A : NFA) (word : list symbol) : Prop :=
  ∃ final, final ∈ accepting A ∧ run h (initial A) word final.


(** The syntax trees all of whose nodes the builder knows. *)
Fixpoint recognized (token : RegexToken) : bool :=
  match token with
  | LiteralToken _ => true
  | UnionToken l r | IntersectionToken l r | ConcatToken l r =>
      recognized l && recognized r
  | KleeneStarToken target => recognized target
  | _ => false
  end.

(** The node at the root is of a class the builder does not know. *)
Definition unrecognized_root (token : RegexToken) : bool :=
  match token with
  | OtherUnaryOperatorToken _ | OtherBinaryOperatorToken _ _
  | OtherOperatorToken | OtherRegexToken => true
  | _ => false
  end.

(** The exceptions raised for a node the builder does not know. *)
Definition construction_error (e : exn) : bool :=
  match e with
  | UnexpectedUnaryOpToken | UnexpectedBinaryOpToken
  | UnexpectedOperatorToken | UnexpectedToken => true
  | _ => false
  end.

(** The syntax trees without an intersection node. *)
Fixpoint intersection_free (token : RegexToken) : bool :=
  match token with
  | LiteralToken _ => true
  | UnionToken l r | ConcatToken l r =>
      intersection_free l && intersection_free r
  | KleeneStarToken target => intersection_free target
  | _ => false
  end.

(** An upper bound on the number of states that building a tree
    allocates: two for a literal, one for a union and for a star, none
    for a concatenation, and for an intersection one for each couple of
    states of the operands. *)
Fixpoint states_bound (token : RegexToken) : nat :=
  match token with
  | LiteralToken _ => 2
  | UnionToken l r => states_bound l + states_bound r + 1
  | ConcatToken l r => states_bound l + states_bound r
  | KleeneStarToken target => states_bound target + 1
  | IntersectionToken l r =>
      states_bound l + states_bound r + states_bound l * states_bound r
  | _ => 0
  end.

(** ** Reasoning about computations *)

(** [wp m w Q E]: run from [w], [m] either returns a value and a world
    that satisfy [Q], or raises an exception and leaves a world that satisfy
    [E]. *)
Definition wp {A} (m : M A) (w : World)
    (Q : A → World → Prop) (E : exn → World → Prop) : Prop :=
  match m w with
  | (Ok a, w') => Q a w'
  | (Raise e, w') => E e w'
  end.

(** ** Relations between heaps *)

(** [h'] is [h] with the transitions [E] added and nothing else changed. *)
Definition edges_added (E : loc → symbol → loc → Prop) (h h' : list State) : Prop :=
  length h' = length h ∧
  (∀ s, (∀ literal t, ¬ E s literal t) → h' !! s = h !! s) ∧
  (∀ s literal t, t ∈ delta h' s literal ↔ t ∈ delta h s literal ∨ E s literal t).

(** [w'] comes from [w] by allocating [k] states and by changing only
    states allocated since [w], whose destinations are allocated since
    [w] too. *)
Definition grown (k : nat) (w w' : World) : Prop :=
  length (heap w') = (length (heap w) + k)%nat ∧
  current_label w' = current_label w + Z.of_nat k ∧
  (∀ s, (s < length (heap w))%nat → heap w' !! s = heap w !! s) ∧
  (∀ s literal t, (length (heap w) ≤ s)%nat → t ∈ delta (heap w') s literal →
     (length (heap w) ≤ t)%nat ∧ allocated (heap w') t).

(** The states allocated between two worlds. *)
Definition fresh (w w' : World) (s : loc) : Prop :=
  (length (heap w) ≤ s)%nat ∧ allocated (heap w') s.

(** What every building step establishes: the automaton [A] returned in
    [w'] from [w] is made of states allocated since [w]. *)
Definition built (k : nat) (w : World) (A : NFA) (w' : World) : Prop :=
  grown k w w' ∧
  fresh w w' (initial A) ∧
  (∀ s, s ∈ accepting A → fresh w w' s).

(** The invariant of the stack of the traversal: a state already visited
    that is still on the stack has each destination either visited or
    nearer to the top ([above]) than itself. *)
Fixpoint above_closed (h : list State) (visited above : gset loc)
    (stack : list loc) : Prop :=
  match stack with
  | [] => True
  | x :: stack' =>
      (x ∈ visited → ∀ t, edge h x t → t ∈ visited ∨ t ∈ above) ∧
      above_closed h visited ({[x]} ∪ above) stack'
  end.

(** What the traversal has left to do: the stack, and the destinations
    of every state not visited yet. *)
Definition work_left (h : list State) (visited : gset loc) (stack : list loc) : nat :=
  (length stack +
   sum_list ((λ s, out_degree (transitions_of h s)) <$>
             filter (λ s, s ∉ visited) (seq 0 (length h))))%nat.

(** The world after a successful [State()]. *)
Definition allocate (w : World) : World :=
  {| current_label := current_label w + 1;
     heap := heap w ++ [ {| _label := current_label w; transitions := ∅ |} ] |}.

(** Every transition of [h] is a transition of [h']. *)
Definition extends (h h' : list State) : Prop :=
  ∀ s literal t, t ∈ delta h s literal → t ∈ delta h' s literal.

(** The transitions the product construction gives the state of the
    couple [(l, r)]: under a symbol other than [EPSILON], to the couples
    of a destination of [l] and a destination of [r] under that symbol;
    under [EPSILON], when one of [l] and [r] has an [EPSILON] entry, to
    the couples of [l] or one of its [EPSILON] destinations and [r] or
    one of its [EPSILON] destinations. *)
Definition product_edge (h : list State) (l r : loc) (literal : symbol)
    (nl nr : loc) : Prop :=
  (literal ≠ EPSILON ∧ nl ∈ delta h l literal ∧ nr ∈ delta h r literal) ∨
  (literal = EPSILON ∧
   (EPSILON ∈ dom (transitions_of h l) ∨ EPSILON ∈ dom (transitions_of h r)) ∧
   nl ∈ delta h l EPSILON ∪ {[l]} ∧ nr ∈ delta h r EPSILON ∪ {[r]}).

(** [P] in [h'] is the product of [left] and [right] in [h], with
    [ps] the dictionary [product_states]: a state for each couple of a
    state reachable in [left] and a state reachable in [right], all of
    them allocated after [h]; the initial state is that of the couple of
    initial states, the accepting states are those of the couples of
    accepting states, and the transitions are the [product_edge]s. *)
Definition product_of (h : list State) (left right : NFA)
    (ps : list ((loc * loc) * loc)) (P : NFA) (h' : list State) : Prop :=
  NoDup ps.*1 ∧
  ps.*2 = seq (length h) (length ps) ∧
  length h' = (length h + length ps)%nat ∧
  (∀ l r, (∃ p, ((l, r), p) ∈ ps) ↔
          reaches h (initial left) l ∧ reaches h (initial right) r) ∧
  ((initial left, initial right), initial P) ∈ ps ∧
  (∀ p, p ∈ accepting P ↔
        ∃ l r, ((l, r), p) ∈ ps ∧ l ∈ accepting left ∧ r ∈ accepting right) ∧
  (∀ l r p, ((l, r), p) ∈ ps → ∀ literal q,
     q ∈ delta h' p literal ↔
     ∃ nl nr, product_edge h l r literal nl nr ∧ ((nl, nr), q) ∈ ps).

(** ** Sample inputs *)

(** The letters [a] and [b]. *)
Definition chr_a : symbol := 97%N.
Definition chr_b : symbol := 98%N.

(** [a.a.a.a.a.a.a.a.a.a.a.a.a.a]: fourteen literals, twenty-eight states. *)
Definition fourteen_literals : RegexToken :=
  Nat.iter 13 (λ t, ConcatToken t (LiteralToken chr_a)) (LiteralToken chr_a).

(** The value and the world a computation ends with, from the world of a
    fresh module and with the iteration orders of stdpp. *)
Definition result_of {A} (default : A) (m : M A) : A :=
  match (m initial_world).1 with
  | Ok a => a
  | Raise _ => default
  end.

Definition value_of (m : M NFA) : NFA := result_of (mkNFA 0 ∅) m.

Definition world_of {A} (m : M A) : World := (m initial_world).2.

(** [a*] and [a.a], built one after the other, and their product. *)
Definition star_a : RegexToken := KleeneStarToken (LiteralToken chr_a).
Definition a_then_a : RegexToken :=
  ConcatToken (LiteralToken chr_a) (LiteralToken chr_a).

Definition sample_operands : M (NFA * NFA) :=
  left ← @parse_regex_token canonical_order star_a;
  right ← @parse_regex_token canonical_order a_then_a;
  mret (left, right).

Definition sample_left : NFA :=
  (result_of (mkNFA 0 ∅, mkNFA 0 ∅) sample_operands).1.
Definition sample_right : NFA :=
  (result_of (mkNFA 0 ∅, mkNFA 0 ∅) sample_operands).2.

Definition sample_product : M NFA :=
  sample_operands ≫= λ operands,
    @intersect canonical_order operands.1 operands.2.

(** A check of [closed] that can be computed. *)
Definition closed_check (h : list State) : Prop :=
  Forall (λ st, map_Forall (λ _ (next_states : gset loc),
                              set_Forall (λ t, (t < length h)%nat) next_states)
                           (transitions st)) h.

(** * Properties *)

(** ** Rules for computations *)

Lemma wp_ret {A} (a : A) w Q E : Q a w → wp (ret a) w Q E.
Proof. done. Qed.

Lemma wp_mret {A} (a : A) w Q E : Q a w → wp (mret a) w Q E.
Proof. done. Qed.

Lemma wp_raise {A} e w (Q : A → World → Prop) E : E e w → wp (raise e) w Q E.
Proof. done. Qed.

Lemma wp_bind {A B} (m : M A) (f : A → M B) w Q E :
  wp m w (λ a w', wp (f a) w' Q E) E → wp (m ≫= f) w Q E.
Proof.
  unfold wp, mbind, M_bind, bind. by destruct (m w) as [[a|e] w'].
Qed.

Lemma wp_mono {A} (m : M A) w (Q Q' : A → World → Prop) (E E' : exn → World → Prop) :
  wp m w Q E →
  (∀ a w', Q a w' → Q' a w') → (∀ e w', E e w' → E' e w') →
  wp m w Q' E'.
Proof.
  unfold wp. destruct (m w) as [[a|e] w']; auto.
Qed.

Lemma wp_ok {A} (m : M A) w Q E a w' :
  wp m w Q E → m w = (Ok a, w') → Q a w'.
Proof. unfold wp. intros H Heq. by rewrite Heq in H. Qed.

Lemma wp_err {A} (m : M A) w Q E e w' :
  wp m w Q E → m w = (Raise e, w') → E e w'.
Proof. unfold wp. intros H Heq. by rewrite Heq in H. Qed.

Lemma wp_intro {A} (m : M A) w (Q : A → World → Prop) (E : exn → World → Prop) :
  (∀ a w', m w = (Ok a, w') → Q a w') →
  (∀ e w', m w = (Raise e, w') → E e w') →
  wp m w Q E.
Proof.
  unfold wp. destruct (m w) as [[a|e] w']; auto.
Qed.

Lemma bind_ok_inv {A B} (m : M A) (f : A → M B) w b w' :
  (m ≫= f) w = (Ok b, w') →
  ∃ a w1, m w = (Ok a, w1) ∧ f a w1 = (Ok b, w').
Proof.
  unfold mbind, M_bind, bind. destruct (m w) as [[a|e] w1]; [eauto | done].
Qed.

(** A loop with its invariant, stated on the elements already visited. *)
Lemma wp_for_ {A} (I : list A → World → Prop) (xs : list A) (body : A → M unit)
    w Q E :
  I [] w →
  (∀ done x todo w, xs = done ++ x :: todo → I done w →
     wp (body x) w (λ _ w', I (done ++ [x]) w') E) →
  (∀ w, I xs w → Q tt w) →
  wp (for_ xs body) w Q E.
Proof.
  intros H0 Hstep Hend.
  assert (∀ todo done w, xs = done ++ todo → I done w →
            wp (for_ todo body) w Q E) as Hgen.
  { induction todo as [|x todo IH]; intros done w0 Hxs HI; simpl.
    - apply wp_ret, Hend. by rewrite Hxs, app_nil_r.
    - apply wp_bind. eapply wp_mono; [by eapply Hstep| |done].
      intros [] w1 HI1. eapply IH; [|done]. by rewrite <-app_assoc. }
  by eapply (Hgen xs []).
Qed.

Lemma wp_for_acc {A S} (I : list A → S → World → Prop) (xs : list A)
    (body : S → A → M S) acc w Q E :
  I [] acc w →
  (∀ done x todo acc w, xs = done ++ x :: todo → I done acc w →
     wp (body acc x) w (λ acc' w', I (done ++ [x]) acc' w') E) →
  (∀ acc w, I xs acc w → Q acc w) →
  wp (for_acc xs acc body) w Q E.
Proof.
  intros H0 Hstep Hend.
  assert (∀ todo done acc w, xs = done ++ todo → I done acc w →
            wp (for_acc todo acc body) w Q E) as Hgen.
  { induction todo as [|x todo IH]; intros done acc0 w0 Hxs HI; simpl.
    - apply wp_ret, Hend. by rewrite Hxs, app_nil_r.
    - apply wp_bind. eapply wp_mono; [by eapply Hstep| |done].
      intros acc1 w1 HI1. eapply IH; [|done]. by rewrite <-app_assoc. }
  by eapply (Hgen xs []).
Qed.

Lemma wp_comprehension {A B} (I : list A → list B → World → Prop) (xs : list A)
    (f : A → M B) w Q E :
  I [] [] w →
  (∀ done ys x todo w, xs = done ++ x :: todo → I done ys w →
     wp (f x) w (λ y w', I (done ++ [x]) (ys ++ [y]) w') E) →
  (∀ ys w, I xs ys w → Q ys w) →
  wp (comprehension xs f) w Q E.
Proof.
  intros H0 Hstep Hend.
  assert (∀ todo done ys w Q', xs = done ++ todo → I done ys w →
            (∀ zs w, I xs (ys ++ zs) w → Q' zs w) →
            wp (comprehension todo f) w Q' E) as Hgen.
  { induction todo as [|x todo IH]; intros done ys w0 Q' Hxs HI HQ'; simpl.
    - apply wp_ret, HQ'. by rewrite Hxs, !app_nil_r.
    - apply wp_bind. eapply wp_mono; [by eapply Hstep| |done].
      intros y w1 HI1. apply wp_bind.
      apply (IH (done ++ [x]) (ys ++ [y])); [by rewrite <-app_assoc|done|].
      intros zs w2 HI2. apply wp_ret, HQ'. by rewrite <-app_assoc in HI2. }
  by eapply (Hgen xs [] []).
Qed.

(** ** The heap *)

Lemma transitions_of_ge h s : (length h ≤ s)%nat → transitions_of h s = ∅.
Proof. intros Hs. unfold transitions_of. by rewrite lookup_ge_None_2. Qed.

Lemma delta_ge h s literal : (length h ≤ s)%nat → delta h s literal = ∅.
Proof. intros Hs. unfold delta. by rewrite transitions_of_ge. Qed.

Lemma delta_allocated h s literal t : t ∈ delta h s literal → allocated h s.
Proof.
  intros Ht. unfold allocated. destruct (decide (s < length h)%nat); [done|].
  rewrite delta_ge in Ht by lia. set_solver.
Qed.

Lemma transitions_of_lookup h h' s :
  h' !! s = h !! s → transitions_of h' s = transitions_of h s.
Proof. unfold transitions_of. by intros ->. Qed.

Lemma delta_lookup h h' s literal :
  h' !! s = h !! s → delta h' s literal = delta h s literal.
Proof. unfold delta. by intros ->%transitions_of_lookup. Qed.

Lemma lookup_add_to_table literal to_state tr k :
  add_to_table literal to_state tr !! k =
    if decide (literal = k) then Some (default ∅ (tr !! literal) ∪ {[to_state]})
    else tr !! k.
Proof.
  unfold add_to_table. destruct (tr !! literal) as [ns|] eqn:Hl;
    rewrite lookup_insert; case_decide; simpl; try done.
  by rewrite union_empty_l_L.
Qed.

Lemma length_add_edge self literal to_state h :
  length (add_edge self literal to_state h) = length h.
Proof. apply length_alter. Qed.

Lemma lookup_add_edge_ne self literal to_state h s :
  s ≠ self → add_edge self literal to_state h !! s = h !! s.
Proof. intros Hs. unfold add_edge. by rewrite list_lookup_alter_ne. Qed.

Lemma delta_add_edge self literal to_state h s k :
  allocated h self →
  delta (add_edge self literal to_state h) s k =
    if decide (s = self ∧ k = literal) then delta h s k ∪ {[to_state]}
    else delta h s k.
Proof.
  intros Hself. destruct (decide (s = self)) as [->|Hne].
  - destruct (lookup_lt_is_Some_2 h self Hself) as [st Hst].
    unfold delta, transitions_of, add_edge.
    rewrite list_lookup_alter_eq, Hst. simpl. rewrite lookup_add_to_table.
    repeat case_decide; naive_solver.
  - rewrite (delta_lookup h) by by apply lookup_add_edge_ne.
    case_decide; naive_solver.
Qed.

Lemma edges_added_refl h : edges_added (λ _ _ _, False) h h.
Proof. split_and!; naive_solver. Qed.

Lemma edges_added_trans E1 E2 h h1 h2 :
  edges_added E1 h h1 → edges_added E2 h1 h2 →
  edges_added (λ s literal t, E1 s literal t ∨ E2 s literal t) h h2.
Proof.
  intros (Hl1 & Hf1 & Hd1) (Hl2 & Hf2 & Hd2). split_and!.
  - congruence.
  - intros s Hs. rewrite Hf2, Hf1; naive_solver.
  - intros s c t. rewrite Hd2, Hd1. tauto.
Qed.

Lemma edges_added_ext E E' h h' :
  (∀ s literal t, E s literal t ↔ E' s literal t) →
  edges_added E h h' → edges_added E' h h'.
Proof.
  intros HE (Hl & Hf & Hd). split_and!; [done|..].
  - intros s Hs. apply Hf. intros c t. rewrite HE. apply Hs.
  - intros s c t. rewrite Hd, HE. tauto.
Qed.

Lemma edges_added_add_edge self literal to_state h :
  allocated h self →
  edges_added (λ s k t, s = self ∧ k = literal ∧ t = to_state)
              h (add_edge self literal to_state h).
Proof.
  intros Hself. split_and!.
  - apply length_add_edge.
  - intros s Hs. apply lookup_add_edge_ne. intros ->. by eapply Hs.
  - intros s k t. rewrite delta_add_edge by done.
    case_decide; set_solver.
Qed.

Lemma edges_added_allocated E h h' s :
  edges_added E h h' → allocated h' s ↔ allocated h s.
Proof. intros (Hl & _). unfold allocated. by rewrite Hl. Qed.

(** ** Allocation and mutation *)

Lemma wp_add_transition self literal to_state w Q E :
  Q tt {| current_label := current_label w;
          heap := add_edge self literal to_state (heap w) |} →
  wp (add_transition self literal to_state) w Q E.
Proof. done. Qed.

Lemma wp_get_transitions s w Q E :
  Q (transitions_of (heap w) s) w → wp (get_transitions s) w Q E.
Proof. done. Qed.

Lemma wp_State_init w Q E :
  (current_label w ≤ 65 + 26 →
   Q (length (heap w))
     {| current_label := current_label w + 1;
        heap := heap w ++ [ {| _label := current_label w; transitions := ∅ |} ] |}) →
  (current_label w > 65 + 26 → E LabelsExhausted w) →
  wp State_init w Q E.
Proof.
  intros HQ HE. unfold wp, State_init. case_decide; [apply HE|apply HQ]; lia.
Qed.

(** [for accept in xs: accept.add_transition(literal, to_state)]. *)
Lemma wp_add_transition_all (xs : list loc) literal to_state w Q E :
  (∀ s, s ∈ xs → allocated (heap w) s) →
  (∀ w', current_label w' = current_label w →
         edges_added (λ s k t, s ∈ xs ∧ k = literal ∧ t = to_state)
                     (heap w) (heap w') →
         Q tt w') →
  wp (for_ xs (λ accept, add_transition accept literal to_state)) w Q E.
Proof.
  intros Hxs HQ.
  apply (wp_for_ (λ done w',
    current_label w' = current_label w ∧
    edges_added (λ s k t, s ∈ done ∧ k = literal ∧ t = to_state)
                (heap w) (heap w'))).
  - split; [done|]. eapply edges_added_ext; [|apply edges_added_refl].
    set_solver.
  - intros done x todo w1 -> [Hc Hadd]. apply wp_add_transition.
    split; [done|]. simpl. eapply edges_added_ext; last first.
    + eapply edges_added_trans; [done|]. apply edges_added_add_edge.
      apply (edges_added_allocated _ _ _ _ Hadd), Hxs. set_solver.
    + intros s k t. simpl. set_solver.
  - intros w' [Hc Hadd]. by apply HQ.
Qed.

(** ** Lists *)

Lemma filter_none {A} (P : A → Prop) `{!∀ x, Decision (P x)} (l : list A) :
  (∀ x, x ∈ l → ¬ P x) → filter P l = [].
Proof.
  induction l as [|x l IH]; intros Hl; [done|].
  rewrite filter_cons_False by (apply Hl; left).
  apply IH. intros y Hy. apply Hl. by right.
Qed.

Lemma filter_all {A} (P : A → Prop) `{!∀ x, Decision (P x)} (l : list A) :
  (∀ x, x ∈ l → P x) → filter P l = l.
Proof.
  induction l as [|x l IH]; intros Hl; [done|].
  rewrite filter_cons_True by (apply Hl; left).
  f_equal. apply IH. intros y Hy. apply Hl. by right.
Qed.

(** ** Reachability traversal *)

Section Traversal.
Context `{order : !IterOrder}.

Lemma elem_of_iter_states X x : x ∈ iter_states X ↔ x ∈ X.
Proof. by rewrite iter_states_perm, elem_of_elements. Qed.

Lemma NoDup_iter_states X : NoDup (iter_states X).
Proof. rewrite iter_states_perm. apply NoDup_elements. Qed.

Lemma length_iter_states X : length (iter_states X) = size X.
Proof. by rewrite iter_states_perm. Qed.

Lemma elem_of_iter_symbols X x : x ∈ iter_symbols X ↔ x ∈ X.
Proof. by rewrite iter_symbols_perm, elem_of_elements. Qed.

Lemma elem_of_iter_items m literal next_states :
  (literal, next_states) ∈ iter_items m ↔ m !! literal = Some next_states.
Proof. by rewrite iter_items_perm, elem_of_map_to_list. Qed.

Lemma elem_of_successors h s t : t ∈ successors h s ↔ edge h s t.
Proof.
  unfold successors, edge, delta. rewrite list_elem_of_bind. split.
  - intros ([c ns] & Ht & Hin). apply elem_of_iter_states in Ht.
    apply elem_of_iter_items in Hin. exists c. by rewrite Hin.
  - intros (c & Ht). destruct (transitions_of h s !! c) as [ns|] eqn:Hc;
      [|set_solver].
    exists (c, ns). split; [by apply elem_of_iter_states|].
    by apply elem_of_iter_items.
Qed.

Lemma length_successors h s :
  length (successors h s) = out_degree (transitions_of h s).
Proof.
  unfold successors, out_degree.
  rewrite <-(iter_items_perm (transitions_of h s)).
  induction (iter_items (transitions_of h s)) as [|[c ns] l IH]; [done|].
  rewrite bind_cons, fmap_cons, length_app, IH, length_iter_states. done.
Qed.

Lemma push_unvisited (states : gset loc) xs stack :
  foldl (λ stack next_state,
           if decide (next_state ∈ states) then stack else next_state :: stack)
        stack xs
  = reverse (filter (λ t, t ∉ states) xs) ++ stack.
Proof.
  revert stack. induction xs as [|x xs IH]; intros stack; [done|].
  simpl. rewrite IH. rewrite filter_cons.
  destruct (decide (x ∈ states)), (decide (x ∉ states)); try done.
  by rewrite reverse_cons, <-app_assoc.
Qed.

Lemma collect_loop_step fuel h states state stack :
  collect_loop (S fuel) h states (state :: stack) =
    collect_loop fuel h ({[state]} ∪ states)
      (reverse (filter (λ t, t ∉ {[state]} ∪ states) (successors h state)) ++ stack).
Proof.
  simpl. f_equal. unfold successors.
  generalize (iter_items (transitions_of h state)). intros items. revert stack.
  induction items as [|[c ns] items IH]; intros stack; [done|].
  simpl. rewrite IH, push_unvisited.
  rewrite filter_app, reverse_app, <-app_assoc. done.
Qed.

(** Whatever the fuel, a finished traversal returns what it had visited,
    whatever was on the stack and nothing that cannot be reached from
    there, and it is closed under transitions if what it had visited
    pointed into the visited states and the stack. *)
Lemma collect_loop_sound fuel h : ∀ states stack R,
  collect_loop fuel h states stack = Some R →
  states ⊆ R ∧ (∀ s, s ∈ stack → s ∈ R) ∧
  (∀ t, t ∈ R → t ∈ states ∨ ∃ s, s ∈ stack ∧ reaches h s t) ∧
  ((∀ v t, v ∈ states → edge h v t → t ∈ states ∨ t ∈ stack) →
   ∀ v t, v ∈ R → edge h v t → t ∈ R).
Proof.
  induction fuel as [|fuel IH]; intros states stack R.
  - destruct stack; [|done]. intros [= <-]. set_solver.
  - destruct stack as [|x stack]; [intros [= <-]; set_solver|].
    rewrite collect_loop_step. intros (HV & HS & Hr & Hc)%IH. split_and!.
    + set_solver.
    + intros s [->|Hs]%elem_of_cons; [set_solver|].
      apply HS. set_solver.
    + intros t [[Ht|Ht]%elem_of_union|(s & [Hs|Hs]%elem_of_app & Hst)]%Hr.
      * right. exists x. split; [left|]. apply elem_of_singleton in Ht as ->.
        apply rtc_refl.
      * by left.
      * right. exists x. split; [left|].
        apply elem_of_reverse, list_elem_of_filter in Hs as [_ Hs].
        apply elem_of_successors in Hs. by eapply rtc_l.
      * right. exists s. split; [by right|done].
    + intros Hcl. apply Hc. intros v t [Hv|Hv]%elem_of_union Hvt.
      * apply elem_of_singleton in Hv as ->.
        destruct (decide (t ∈ {[x]} ∪ states)); [by left|right].
        apply elem_of_app. left.
        apply elem_of_reverse, list_elem_of_filter.
        split; [done|]. by apply elem_of_successors.
      * destruct (Hcl v t Hv Hvt) as [?|[->|?]%elem_of_cons];
          [left|left|right]; set_solver.
Qed.

Lemma above_closed_mono h V A V' A' stack :
  above_closed h V A stack →
  (∀ t, t ∈ V ∨ t ∈ A → t ∈ V' ∨ t ∈ A') →
  (∀ y t, y ∈ stack → y ∈ V' → y ∉ V → edge h y t → t ∈ V' ∨ t ∈ A') →
  above_closed h V' A' stack.
Proof.
  revert A A'. induction stack as [|x stack IH]; intros A A'; [done|].
  intros [Hx HJ] Hsub Hnew. split.
  - intros HxV' t Hxt. destruct (decide (x ∈ V)) as [HxV|HxV].
    + apply Hsub. by apply Hx.
    + eapply Hnew; [left|done..].
  - eapply IH; [done|..].
    + intros t. specialize (Hsub t). set_solver.
    + intros y t Hy HyV' HyV Hyt.
      destruct (Hnew y t) as [?|?]; [by right|done..|by left|set_solver].
Qed.

Lemma above_closed_push h V A news stack :
  (∀ y, y ∈ news → y ∉ V) →
  above_closed h V (list_to_set news ∪ A) stack →
  above_closed h V A (news ++ stack).
Proof.
  revert A. induction news as [|y news IH]; intros A Hnews HJ; simpl.
  - by rewrite list_to_set_nil, union_empty_l_L in HJ.
  - split.
    + intros HyV. destruct (Hnews y); [left|done].
    + apply IH; [set_solver|].
      replace (list_to_set news ∪ ({[y]} ∪ A))
        with (list_to_set (y :: news) ∪ A : gset loc); [done|].
      set_solver.
Qed.

Lemma unvisited_degree_visit (f : loc → nat) (V : gset loc) x l :
  NoDup l → x ∉ V →
  (sum_list (f <$> filter (λ s, s ∉ V) l) =
   sum_list (f <$> filter (λ s, s ∉ {[x]} ∪ V) l)
   + (if decide (x ∈ l) then f x else 0))%nat.
Proof.
  intros Hnd HxV. induction Hnd as [|y l Hy Hnd IH]; [done|].
  rewrite !filter_cons.
  destruct (decide (y = x)) as [->|Hne].
  - destruct (decide (x ∉ V)); [|done].
    destruct (decide (x ∉ {[x]} ∪ V)); [set_solver|].
    destruct (decide (x ∈ x :: l)) as [_|[]]; [|left].
    destruct (decide (x ∈ l)); [done|].
    rewrite fmap_cons. simpl. lia.
  - assert (x ∈ y :: l ↔ x ∈ l) as Hin by set_solver.
    destruct (decide (y ∉ V)).
    + destruct (decide (y ∉ {[x]} ∪ V)); [|set_solver].
      rewrite !fmap_cons. simpl. rewrite IH.
      destruct (decide (x ∈ y :: l)), (decide (x ∈ l)); tauto || lia.
    + destruct (decide (y ∉ {[x]} ∪ V)); [set_solver|].
      rewrite IH.
      destruct (decide (x ∈ y :: l)), (decide (x ∈ l)); tauto || lia.
Qed.

Lemma collect_loop_terminates h : ∀ fuel states stack,
  above_closed h states ∅ stack →
  (work_left h states stack ≤ fuel)%nat →
  is_Some (collect_loop fuel h states stack).
Proof.
  induction fuel as [|fuel IH]; intros states stack HJ Hfuel.
  - destruct stack; [by eexists|]. unfold work_left in Hfuel. simpl in *. lia.
  - destruct stack as [|x stack]; [by eexists|].
    rewrite collect_loop_step. destruct HJ as [Hx HJ].
    destruct (decide (x ∈ states)) as [HxV|HxV].
    + replace ({[x]} ∪ states) with states by set_solver.
      rewrite filter_none; last first.
      { intros t Ht%elem_of_successors.
        destruct (Hx HxV t Ht); set_solver. }
      simpl. apply IH.
      * eapply above_closed_mono; [done|set_solver|done].
      * unfold work_left in *. simpl in *. lia.
    + apply IH.
      * apply above_closed_push.
        { intros y [Hy _]%elem_of_reverse%list_elem_of_filter. done. }
        eapply above_closed_mono; [done|set_solver|].
        intros y t _ HyV' HyV Hyt.
        assert (y = x) as -> by set_solver.
        destruct (decide (t ∈ {[x]} ∪ states)); [by left|right].
        apply elem_of_union. left. apply elem_of_list_to_set.
        apply elem_of_reverse, list_elem_of_filter.
        split; [done|]. by apply elem_of_successors.
      * unfold work_left in *. simpl in Hfuel.
        rewrite (unvisited_degree_visit _ states x) in Hfuel
          by (done || apply NoDup_seq).
        rewrite length_app, length_reverse.
        pose proof (length_filter (λ t, t ∉ {[x]} ∪ states) (successors h x)) as Hlen.
        rewrite length_successors in Hlen.
        case_decide as Hin; [lia|].
        rewrite transitions_of_ge in Hlen.
        2:{ rewrite elem_of_seq in Hin. lia. }
        unfold out_degree in Hlen. rewrite map_to_list_empty in Hlen.
        simpl in Hlen. lia.
Qed.

Lemma work_left_start h s : work_left h ∅ [s] = walk_fuel h.
Proof.
  unfold work_left, walk_fuel. simpl. f_equal.
  rewrite filter_all by set_solver.
  f_equal. apply list_eq. intros i. rewrite !list_lookup_fmap.
  destruct (h !! i) as [st|] eqn:Hi.
  - rewrite lookup_seq_lt by by eapply lookup_lt_Some.
    simpl. unfold transitions_of. by rewrite Hi.
  - rewrite lookup_seq_ge by by apply lookup_ge_None. done.
Qed.

(** From the initial state alone and with [walk_fuel], the loop finishes
    and returns the states that can be reached. *)
Lemma collect_loop_reaches h s :
  ∃ R, collect_loop (walk_fuel h) h ∅ [s] = Some R ∧
       ∀ t, t ∈ R ↔ reaches h s t.
Proof.
  destruct (collect_loop_terminates h (walk_fuel h) ∅ [s]) as [R HR].
  { simpl. set_solver. }
  { by rewrite work_left_start. }
  exists R. split; [done|].
  apply collect_loop_sound in HR as (_ & HS & Hr & Hc).
  intros t. split.
  - intros [Ht|(s' & ->%list_elem_of_singleton & Hst)]%Hr; [set_solver|done].
  - intros Hreach. unfold reaches in Hreach.
    revert t Hreach. apply rtc_ind_r.
    + apply HS. left.
    + intros t u _ Htu Ht. by eapply Hc; [set_solver|..].
Qed.

(** The traversal always finishes, and it returns the states that can be
    reached from the initial state. *)
Lemma collect_reachable_states_spec (self : NFA) w :
  ∃ R, collect_reachable_states self w = (Ok R, w) ∧
       ∀ t, t ∈ R ↔ reaches (heap w) (initial self) t.
Proof.
  unfold collect_reachable_states.
  destruct (collect_loop_reaches (heap w) (initial self)) as (R & -> & HR).
  by exists R.
Qed.

End Traversal.

(** ** How a world grows *)

Ltac alia := unfold fresh, allocated in *; lia.

Lemma State_init_ok w :
  current_label w ≤ 65 + 26 →
  State_init w = (Ok (length (heap w)), allocate w).
Proof. intros Hc. unfold State_init. by rewrite decide_False by lia. Qed.

Lemma State_init_exhausted w :
  current_label w > 65 + 26 → State_init w = (Raise LabelsExhausted, w).
Proof. intros Hc. unfold State_init. by rewrite decide_True by lia. Qed.

Lemma lookup_alloc (h : list State) st s :
  (h ++ [st]) !! s = if decide (s = length h) then Some st else h !! s.
Proof.
  case_decide as Hs.
  - subst. by rewrite list_lookup_middle.
  - destruct (decide (s < length h)%nat).
    + by rewrite lookup_app_l.
    + rewrite !lookup_ge_None_2; [done|lia|]. rewrite length_app. simpl. lia.
Qed.

Lemma delta_alloc h lbl s literal :
  delta (h ++ [ {| _label := lbl; transitions := ∅ |} ]) s literal = delta h s literal.
Proof.
  unfold delta, transitions_of. rewrite lookup_alloc. case_decide; [|done].
  subst. by rewrite lookup_ge_None_2.
Qed.

Lemma grown_refl w : grown 0 w w.
Proof.
  split_and!; [lia|lia|done|].
  intros s c t Hs Ht. apply delta_allocated in Ht. alia.
Qed.

Lemma grown_trans k1 k2 w w1 w2 :
  grown k1 w w1 → grown k2 w1 w2 → grown (k1 + k2) w w2.
Proof.
  intros (Hl1 & Hc1 & Hf1 & Hd1) (Hl2 & Hc2 & Hf2 & Hd2).
  split_and!; [lia|lia|..].
  - intros s Hs. rewrite Hf2 by lia. by apply Hf1.
  - intros s c t Hs Ht. destruct (decide (s < length (heap w1))%nat).
    + rewrite (delta_lookup (heap w1)) in Ht by by apply Hf2.
      apply Hd1 in Ht; alia.
    + apply Hd2 in Ht; alia.
Qed.

Lemma grown_allocate w : grown 1 w (allocate w).
Proof.
  split_and!; simpl.
  - rewrite length_app. simpl. lia.
  - lia.
  - intros s Hs. by rewrite lookup_app_l.
  - intros s c t Hs Ht. rewrite delta_alloc in Ht.
    apply delta_allocated in Ht. alia.
Qed.

Lemma grown_edges E k w w1 w2 :
  grown k w w1 →
  current_label w2 = current_label w1 →
  edges_added E (heap w1) (heap w2) →
  (∀ s literal t, E s literal t → fresh w w1 s ∧ fresh w w1 t) →
  grown k w w2.
Proof.
  intros (Hl1 & Hc1 & Hf1 & Hd1) Hc (Hl & Hf & Hd) HE.
  split_and!; [lia|lia|..].
  - intros s Hs. rewrite Hf; [by apply Hf1|].
    intros c t HEs. apply HE in HEs. alia.
  - intros s c t Hs [Ht|Ht]%Hd.
    + apply Hd1 in Ht; alia.
    + apply HE in Ht. alia.
Qed.

Lemma grown_fresh k1 k2 w w1 w2 s :
  grown k1 w w1 → grown k2 w1 w2 → fresh w w1 s → fresh w w2 s.
Proof.
  intros (Hl1 & _) (Hl2 & _). unfold fresh, allocated. lia.
Qed.

Lemma grown_fresh_r k1 k2 w w1 w2 s :
  grown k1 w w1 → grown k2 w1 w2 → fresh w1 w2 s → fresh w w2 s.
Proof.
  intros (Hl1 & _) (Hl2 & _). unfold fresh, allocated. lia.
Qed.

Lemma grown_extends k w w' : grown k w w' → extends (heap w) (heap w').
Proof.
  intros (_ & _ & Hf & _) s c t Ht.
  rewrite (delta_lookup (heap w)); [done|].
  apply Hf. by eapply delta_allocated.
Qed.

Lemma edges_added_extends E h h' : edges_added E h h' → extends h h'.
Proof. intros (_ & _ & Hd) s c t Ht. apply Hd. by left. Qed.

Lemma extends_trans h1 h2 h3 : extends h1 h2 → extends h2 h3 → extends h1 h3.
Proof. intros H1 H2 s c t Ht. by apply H2, H1. Qed.

Lemma extends_reaches h h' s t : extends h h' → reaches h s t → reaches h' s t.
Proof.
  intros Hext Hst. induction Hst as [|s u t [c Hsu] _ IH]; [apply rtc_refl|].
  eapply rtc_l; [|done]. exists c. by apply Hext.
Qed.

Lemma extends_run h h' s word t : extends h h' → run h s word t → run h' s word t.
Proof.
  intros Hext Hrun. induction Hrun.
  - apply run_stop.
  - eapply run_epsilon; [by apply Hext|done].
  - eapply run_symbol; [done|by apply Hext|done].
Qed.

Lemma closed_reaches_allocated h s t :
  closed h → allocated h s → reaches h s t → allocated h t.
Proof.
  intros Hcl Hs Hst. induction Hst as [|s u t [c Hsu] _ IH]; [done|].
  apply IH. by eapply Hcl.
Qed.

(** States allocated since [w] only reach states allocated since [w]. *)
Lemma grown_reaches_fresh k w w' s t :
  grown k w w' → fresh w w' s → reaches (heap w') s t → fresh w w' t.
Proof.
  intros (_ & _ & _ & Hd) Hs Hst. induction Hst as [|s u t [c Hsu] _ IH]; [done|].
  apply IH. destruct Hs as [Hs _]. by apply Hd in Hsu.
Qed.

(** ** The operations one by one *)

Section Operations.
Context `{order : !IterOrder}.

Lemma parse_literal_token_ok id w :
  current_label w ≤ 65 + 26 - 1 →
  parse_literal_token id w =
    (Ok (mkNFA (length (heap w)) {[S (length (heap w))]}),
     {| current_label := current_label w + 2;
        heap := add_edge (length (heap w)) id (S (length (heap w)))
                  (heap (allocate (allocate w))) |}).
Proof.
  intros Hc. unfold parse_literal_token, mbind, M_bind, bind.
  rewrite State_init_ok by lia.
  rewrite State_init_ok by (simpl; lia).
  unfold add_transition, mret, M_ret, ret. simpl.
  rewrite length_app. simpl. rewrite Nat.add_1_r.
  f_equal. f_equal. lia.
Qed.

Lemma parse_literal_token_exhausted id w :
  current_label w > 65 + 26 - 1 →
  ∃ w', parse_literal_token id w = (Raise LabelsExhausted, w') ∧
        current_label w' > 65 + 26 ∧ ∃ k, (k ≤ 1)%nat ∧ grown k w w'.
Proof.
  intros Hc. unfold parse_literal_token, mbind, M_bind, bind.
  destruct (decide (current_label w > 65 + 26)).
  - rewrite State_init_exhausted by done.
    exists w. split_and!; [done..|]. exists 0%nat. split; [lia|apply grown_refl].
  - rewrite State_init_ok by lia.
    rewrite State_init_exhausted by (simpl; lia).
    exists (allocate w). split_and!; [done|simpl; lia|].
    exists 1%nat. split; [lia|apply grown_allocate].
Qed.

Lemma union_of_spec left right w :
  wp (union_of left right) w
    (λ A w', current_label w ≤ 65 + 26 ∧
       A = mkNFA (length (heap w)) (accepting left ∪ accepting right) ∧
       current_label w' = current_label w + 1 ∧
       edges_added (λ s k t, s = length (heap w) ∧ k = EPSILON ∧
                             (t = initial left ∨ t = initial right))
                   (heap (allocate w)) (heap w'))
    (λ e w', e = LabelsExhausted ∧ w' = w ∧ current_label w > 65 + 26).
Proof.
  unfold union_of. apply wp_bind, wp_State_init; [|done].
  intros Hc. apply wp_bind, wp_add_transition, wp_bind, wp_add_transition, wp_mret.
  split_and!; [done..|]. simpl.
  assert (allocated (heap w ++ [{| _label := current_label w; transitions := ∅ |}])
            (length (heap w))) as Hn.
  { unfold allocated. rewrite length_app. simpl. lia. }
  eapply edges_added_ext; last first.
  - eapply edges_added_trans; apply edges_added_add_edge; [done|].
    unfold allocated. rewrite length_add_edge. apply Hn.
  - naive_solver.
Qed.

Lemma concat_of_spec left right w :
  (∀ s, s ∈ accepting left → allocated (heap w) s) →
  wp (concat_of left right) w
    (λ A w', A = mkNFA (initial left) (accepting right) ∧
       current_label w' = current_label w ∧
       edges_added (λ s k t, s ∈ accepting left ∧ k = EPSILON ∧ t = initial right)
                   (heap w) (heap w'))
    (λ _ _, False).
Proof.
  intros Hacc. unfold concat_of. apply wp_bind, wp_add_transition_all.
  - intros s Hs%elem_of_iter_states. by apply Hacc.
  - intros w' Hc Hadd. apply wp_mret. split_and!; [done..|].
    eapply edges_added_ext; [|done]. intros s k t. simpl.
    by rewrite elem_of_iter_states.
Qed.

Lemma kleene_star_of_spec root w :
  (∀ s, s ∈ accepting root → allocated (heap w) s) →
  wp (kleene_star_of root) w
    (λ A w', current_label w ≤ 65 + 26 ∧
       A = mkNFA (length (heap w)) ({[length (heap w)]} ∪ accepting root) ∧
       current_label w' = current_label w + 1 ∧
       edges_added (λ s k t, (s = length (heap w) ∨ s ∈ accepting root) ∧
                             k = EPSILON ∧ t = initial root)
                   (heap (allocate w)) (heap w'))
    (λ e w', e = LabelsExhausted ∧ w' = w ∧ current_label w > 65 + 26).
Proof.
  intros Hacc. unfold kleene_star_of. apply wp_bind, wp_State_init; [|done].
  intros Hc. apply wp_bind, wp_add_transition, wp_bind.
  assert (allocated (heap w ++ [{| _label := current_label w; transitions := ∅ |}])
            (length (heap w))) as Hn.
  { unfold allocated. rewrite length_app. simpl. lia. }
  apply wp_add_transition_all.
  - intros s Hs%elem_of_iter_states. simpl. unfold allocated.
    rewrite length_add_edge, length_app. apply Hacc in Hs. alia.
  - intros w' Hc' Hadd. apply wp_mret. split_and!; [done..|]. simpl in *.
    eapply edges_added_ext; last first.
    + eapply edges_added_trans; [|done]. by apply edges_added_add_edge.
    + intros s k t. simpl. rewrite elem_of_iter_states. naive_solver.
Qed.

End Operations.

(** ** The product construction *)

Lemma elem_of_compute_pairs {A} (xs ys : list A) x y :
  (x, y) ∈ compute_pairs xs ys ↔ x ∈ xs ∧ y ∈ ys.
Proof.
  unfold compute_pairs. rewrite list_elem_of_bind. split.
  - intros (x' & Hin & Hx'). apply list_elem_of_fmap in Hin as (y' & [= -> ->] & Hy').
    done.
  - intros [Hx Hy]. exists x. split; [|done]. apply list_elem_of_fmap. eauto.
Qed.

Lemma NoDup_compute_pairs {A} (xs ys : list A) :
  NoDup xs → NoDup ys → NoDup (compute_pairs xs ys).
Proof.
  intros Hxs Hys. unfold compute_pairs.
  induction Hxs as [|x xs Hx Hxs IH]; [constructor|].
  rewrite bind_cons. apply NoDup_app. split_and!.
  - apply NoDup_fmap_2; [|done]. by intros ?? [=].
  - intros [x' y'] (y0 & [= -> ->] & _)%list_elem_of_fmap
      (x0 & (y1 & [= -> ->] & _)%list_elem_of_fmap & Hx0)%list_elem_of_bind.
    done.
  - done.
Qed.

Lemma length_compute_pairs {A} (xs ys : list A) :
  length (compute_pairs xs ys) = (length xs * length ys)%nat.
Proof.
  unfold compute_pairs. induction xs as [|x xs IH]; [done|].
  rewrite bind_cons, length_app, length_fmap, IH. simpl. lia.
Qed.

Lemma NoDup_fst_functional {K V} (ps : list (K * V)) k v v' :
  NoDup ps.*1 → (k, v) ∈ ps → (k, v') ∈ ps → v = v'.
Proof.
  induction ps as [|[k0 v0] ps IH]; simpl; [by intros _ ?%elem_of_nil|].
  intros [Hk0 Hnd]%NoDup_cons [[= -> ->]|Hv]%elem_of_cons [[= ->]|Hv']%elem_of_cons;
    try done.
  - destruct Hk0. apply list_elem_of_fmap. by exists (k0, v').
  - destruct Hk0. apply list_elem_of_fmap. by exists (k0, v).
  - by apply IH.
Qed.

Lemma NoDup_snd_functional {K V} (ps : list (K * V)) k k' v :
  NoDup ps.*2 → (k, v) ∈ ps → (k', v) ∈ ps → k = k'.
Proof.
  induction ps as [|[k0 v0] ps IH]; simpl; [by intros _ ?%elem_of_nil|].
  intros [Hv0 Hnd]%NoDup_cons Hk Hk'.
  apply elem_of_cons in Hk as [Hk|Hk]; apply elem_of_cons in Hk' as [Hk'|Hk'];
    simplify_eq; [done| | |by apply IH];
    destruct Hv0; apply list_elem_of_fmap; by eexists (_, _).
Qed.

Lemma pairs_index_ok ps k q w :
  NoDup ps.*1 → (k, q) ∈ ps → pairs_index ps k w = (Ok q, w).
Proof.
  induction ps as [|[k0 v0] ps IH]; simpl; [by intros _ ?%elem_of_nil|].
  intros [Hk0 Hnd]%NoDup_cons [[= <- <-]|Hq]%elem_of_cons.
  - by rewrite decide_True.
  - rewrite decide_False; [by apply IH|].
    intros ->. destruct Hk0. apply list_elem_of_fmap. by exists (k, q).
Qed.

Lemma wp_pairs_index ps k q w Q E :
  NoDup ps.*1 → (k, q) ∈ ps → Q q w → wp (pairs_index ps k) w Q E.
Proof. intros Hnd Hq HQ. unfold wp. by rewrite (pairs_index_ok ps k q). Qed.

Lemma wp_table_index (d : gmap N (gset nat)) k v w Q E :
  d !! k = Some v → Q v w → wp (table_index d k) w Q E.
Proof. intros Hk HQ. unfold wp, table_index. by rewrite Hk. Qed.

(** The two loops that fill the table of a product state. *)
Lemma wp_add_pairs ps p literal (xs ys : list nat) w Q E :
  NoDup ps.*1 → allocated (heap w) p →
  (∀ x y, x ∈ xs → y ∈ ys → ∃ q, ((x, y), q) ∈ ps) →
  (∀ w', current_label w' = current_label w →
         edges_added (λ s k q, s = p ∧ k = literal ∧
                        ∃ x y, x ∈ xs ∧ y ∈ ys ∧ ((x, y), q) ∈ ps)
                     (heap w) (heap w') →
         Q tt w') →
  wp (for_ (compute_pairs xs ys)
        (λ next, to_state ← pairs_index ps next;
                 add_transition p literal to_state)) w Q E.
Proof.
  intros Hnd Hp Hps HQ.
  apply (wp_for_ (λ done w',
    current_label w' = current_label w ∧
    edges_added (λ s k q, s = p ∧ k = literal ∧
                   ∃ x y, (x, y) ∈ done ∧ ((x, y), q) ∈ ps)
                (heap w) (heap w'))).
  - split; [done|]. eapply edges_added_ext; [|apply edges_added_refl].
    intros s k t. split; [done|]. intros (_ & _ & x & y & []%elem_of_nil & _).
  - intros done [x y] todo w1 Hdone [Hc Hadd].
    assert ((x, y) ∈ compute_pairs xs ys) as [Hx Hy]%elem_of_compute_pairs.
    { rewrite Hdone. set_solver. }
    destruct (Hps x y Hx Hy) as [q Hq].
    apply wp_bind. eapply wp_pairs_index; [done..|].
    apply wp_add_transition. split; [done|]. simpl.
    eapply edges_added_ext; last first.
    + eapply edges_added_trans; [done|]. apply edges_added_add_edge.
      by apply (edges_added_allocated _ _ _ _ Hadd).
    + intros s k t. simpl. split.
      * intros [(-> & -> & x' & y' & Hin & Hps')|(-> & -> & ->)].
        -- split_and!; [done..|]. exists x', y'. set_solver.
        -- split_and!; [done..|]. exists x, y. set_solver.
      * intros (-> & -> & x' & y' & [Hin|Hin%list_elem_of_singleton]%elem_of_app & Hps').
        -- left. eauto 10.
        -- right. injection Hin as -> ->. split_and!; [done..|].
           by eapply NoDup_fst_functional.
  - intros w' [Hc Hadd]. apply HQ; [done|].
    eapply edges_added_ext; [|done]. intros s k t. simpl.
    setoid_rewrite elem_of_compute_pairs. naive_solver.
Qed.

Section Product.
Context `{order : !IterOrder}.

Lemma edges_added_frame E h h' s :
  edges_added E h h' → (∀ literal t, ¬ E s literal t) →
  transitions_of h' s = transitions_of h s.
Proof. intros (_ & Hf & _) Hs. by apply transitions_of_lookup, Hf. Qed.

(** One turn of the product loop adds to the state of the couple
    [(l, r)] the transitions of the product, and touches nothing else. *)
Lemma product_step_spec left right ps init acc l r p w :
  NoDup ps.*1 → allocated (heap w) p → p ≠ l → p ≠ r →
  (∀ literal nl nr, product_edge (heap w) l r literal nl nr →
                    ∃ q, ((nl, nr), q) ∈ ps) →
  (l = initial left ∧ r = initial right → init = None) →
  wp (product_step left right ps (init, acc) ((l, r), p)) w
    (λ vars w',
       vars = (if decide (l = initial left ∧ r = initial right)
               then Some p else init,
               if decide (l ∈ accepting left ∧ r ∈ accepting right)
               then {[p]} ∪ acc else acc) ∧
       current_label w' = current_label w ∧
       edges_added (λ s literal q, s = p ∧ ∃ nl nr,
                      product_edge (heap w) l r literal nl nr ∧
                      ((nl, nr), q) ∈ ps)
                   (heap w) (heap w'))
    (λ _ _, False).
Proof.
  intros Hnd Hp Hpl Hpr Hps Hinit. unfold product_step.
  apply wp_bind.
  apply (wp_mono _ _
    (λ i w', i = (if decide (l = initial left ∧ r = initial right)
                  then Some p else init) ∧ w' = w) _ (λ _ _, False)); [| |done].
  { case_decide; [|by apply wp_mret]. rewrite Hinit by done. by apply wp_mret. }
  intros i w0 [-> ->].
  apply wp_bind, wp_get_transitions, wp_bind, wp_get_transitions, wp_bind.
  apply (wp_for_ (λ done w1,
    current_label w1 = current_label w ∧
    edges_added (λ s literal q, s = p ∧ literal ∈ done ∧ ∃ nl nr,
                   nl ∈ delta (heap w) l literal ∧ nr ∈ delta (heap w) r literal ∧
                   ((nl, nr), q) ∈ ps)
                (heap w) (heap w1))).
  - split; [done|]. eapply edges_added_ext; [|apply edges_added_refl].
    intros s k t. split; [done|]. by intros (_ & ?%elem_of_nil & _).
  - intros done c todo w1 Hdone [Hc Hadd].
    assert (c ∈ (dom (transitions_of (heap w) l) ∩ dom (transitions_of (heap w) r)) ∖ {[EPSILON]}) as Hcommon.
    { apply elem_of_iter_symbols. rewrite Hdone. set_solver. }
    apply elem_of_difference in Hcommon as [[HcL HcR]%elem_of_intersection HcE].
    apply elem_of_dom in HcL as [nsl HcL]. apply elem_of_dom in HcR as [nsr HcR].
    apply wp_bind, wp_get_transitions, wp_bind, wp_get_transitions.
    rewrite (edges_added_frame _ _ _ l Hadd) by naive_solver.
    rewrite (edges_added_frame _ _ _ r Hadd) by naive_solver.
    apply wp_bind. eapply wp_table_index; [done|].
    apply wp_bind. eapply wp_table_index; [done|].
    assert (delta (heap w) l c = nsl) as HdL by (unfold delta; by rewrite HcL).
    assert (delta (heap w) r c = nsr) as HdR by (unfold delta; by rewrite HcR).
    apply wp_add_pairs; [done|by apply (edges_added_allocated _ _ _ _ Hadd)|..].
    + intros x y Hx%elem_of_iter_states Hy%elem_of_iter_states.
      apply (Hps c). left. rewrite HdL, HdR. set_solver.
    + intros w2 Hc2 Hadd2. split; [congruence|].
      eapply edges_added_ext; [|by eapply edges_added_trans].
      intros s k t. simpl. setoid_rewrite elem_of_iter_states.
      setoid_rewrite elem_of_app. setoid_rewrite list_elem_of_singleton.
      split.
      * intros [?|(-> & -> & x & y & ? & ? & ?)]; [naive_solver|].
        split_and!; [done|by right|]. exists x, y. by rewrite HdL, HdR.
      * intros (-> & [?| ->] & x & y & Hx & Hy & ?); [naive_solver|].
        right. rewrite HdL in Hx. rewrite HdR in Hy. naive_solver.
  - intros w1 [Hc Hadd].
    apply wp_bind, wp_get_transitions, wp_bind, wp_get_transitions.
    rewrite (edges_added_frame _ _ _ l Hadd) by naive_solver.
    rewrite (edges_added_frame _ _ _ r Hadd) by naive_solver.
    assert (∀ s k t,
      (s = p ∧ k ∈ iter_symbols ((dom (transitions_of (heap w) l) ∩ dom (transitions_of (heap w) r)) ∖ {[EPSILON]}) ∧ ∃ nl nr,
         nl ∈ delta (heap w) l k ∧ nr ∈ delta (heap w) r k ∧ ((nl, nr), t) ∈ ps)
      ↔ (s = p ∧ ∃ nl nr,
           (k ≠ EPSILON ∧ nl ∈ delta (heap w) l k ∧ nr ∈ delta (heap w) r k) ∧
           ((nl, nr), t) ∈ ps)) as Hsym.
    { intros s k t. rewrite elem_of_iter_symbols. split; [set_solver|].
      intros (-> & nl & nr & (Hk & Hnl & Hnr) & Ht). split_and!; [done| |eauto].
      apply elem_of_difference. split; [|set_solver].
      apply elem_of_intersection. split; apply elem_of_dom.
      - unfold delta in Hnl. destruct ((transitions_of (heap w) l) !! k); [done|set_solver].
      - unfold delta in Hnr. destruct ((transitions_of (heap w) r) !! k); [done|set_solver]. }
    apply wp_bind. case_decide as Heps.
    + apply wp_add_pairs; [done|by apply (edges_added_allocated _ _ _ _ Hadd)|..].
      * intros x y Hx%elem_of_iter_states Hy%elem_of_iter_states.
        apply (Hps EPSILON). right. done.
      * intros w2 Hc2 Hadd2. apply wp_mret. split_and!; [done|congruence|].
        eapply edges_added_ext; [|by eapply edges_added_trans].
        intros s k t. simpl. rewrite Hsym.
        setoid_rewrite elem_of_iter_states. unfold product_edge.
        unfold delta at 3 4. naive_solver.
    + apply wp_mret, wp_mret. split_and!; [done..|].
      eapply edges_added_ext; [|done].
      intros s k t. simpl. rewrite Hsym. unfold product_edge.
      naive_solver.
Qed.

Lemma product_edge_lookup h h' l r literal nl nr :
  h' !! l = h !! l → h' !! r = h !! r →
  product_edge h' l r literal nl nr ↔ product_edge h l r literal nl nr.
Proof.
  intros Hl Hr. unfold product_edge.
  by rewrite !(delta_lookup h h' l), !(delta_lookup h h' r),
    (transitions_of_lookup h h' l), (transitions_of_lookup h h' r).
Qed.

Lemma product_edge_reaches h l r literal nl nr :
  product_edge h l r literal nl nr → reaches h l nl ∧ reaches h r nr.
Proof.
  intros [(_ & Hl & Hr)|(_ & _ & Hl & Hr)].
  - split; apply rtc_once; by eexists.
  - apply elem_of_union in Hl as [Hl| ->%elem_of_singleton];
    apply elem_of_union in Hr as [Hr| ->%elem_of_singleton];
      split; try apply rtc_refl; apply rtc_once; by eexists.
Qed.

Lemma zip_snoc {A B} (xs : list A) (ys : list B) x y :
  length xs = length ys → zip (xs ++ [x]) (ys ++ [y]) = zip xs ys ++ [(x, y)].
Proof.
  revert ys. induction xs as [|x' xs IH]; intros [|y' ys] Hlen; simplify_eq/=;
    [done|]. f_equal. by apply IH.
Qed.

(** The comprehension that allocates the product states. *)
Lemma wp_allocate_pairs (pairs : list (nat * nat)) w Q E :
  (∀ w', grown (length pairs) w w' →
         (∀ s, (length (heap w) ≤ s)%nat → transitions_of (heap w') s = ∅) →
         Q (zip pairs (seq (length (heap w)) (length pairs))) w') →
  (∀ k w', (k ≤ length pairs)%nat → grown k w w' →
           current_label w' > 65 + 26 → E LabelsExhausted w') →
  wp (comprehension pairs (λ pair, state ← State_init; mret (pair, state))) w Q E.
Proof.
  intros HQ HE.
  apply (wp_comprehension (λ done ys w',
    ys = zip done (seq (length (heap w)) (length done)) ∧
    grown (length done) w w' ∧
    (length done ≤ length pairs)%nat ∧
    (∀ s, (length (heap w) ≤ s)%nat → transitions_of (heap w') s = ∅))).
  - split_and!; [done|apply grown_refl|simpl; lia|].
    intros s Hs. by apply transitions_of_ge.
  - intros done ys x todo w' Hpairs (-> & Hg & Hlen & Hempty).
    apply wp_bind, wp_State_init.
    + intros Hc. apply wp_mret.
      assert (length (done ++ [x]) = (length done + 1)%nat) as Hl
        by (rewrite length_app; simpl; lia).
      split_and!.
      * rewrite Hl, seq_app.
        change (seq (length (heap w) + length done) 1)
          with [(length (heap w) + length done)%nat].
        rewrite zip_snoc by by rewrite length_seq.
        do 3 f_equal. by destruct Hg as (-> & _).
      * rewrite Hl. eapply grown_trans; [done|apply grown_allocate].
      * rewrite Hpairs, !length_app. simpl. lia.
      * intros s Hs. simpl. unfold transitions_of. rewrite lookup_alloc.
        case_decide; [done|]. by apply Hempty.
    + intros Hc. eapply HE; [|done..]. lia.
  - intros ys w' (-> & Hg & _ & Hempty). by apply HQ.
Qed.

Lemma elem_of_zip_seq {A} (xs : list A) n x p :
  (x, p) ∈ zip xs (seq n (length xs)) → (n ≤ p < n + length xs)%nat.
Proof.
  intros Hin%elem_of_zip_r. apply elem_of_seq in Hin. lia.
Qed.

Lemma zip_seq_total {A} (xs : list A) n x :
  x ∈ xs → ∃ p, (x, p) ∈ zip xs (seq n (length xs)).
Proof.
  intros [i Hi]%list_elem_of_lookup. exists (n + i)%nat.
  apply list_elem_of_lookup. exists i. apply lookup_zip_with_Some.
  exists x, (n + i)%nat. split_and!; [done..|].
  apply lookup_seq. split; [done|]. by eapply lookup_lt_Some.
Qed.

Lemma wp_collect_reachable_states (self : NFA) w Q E :
  (∀ R, (∀ t, t ∈ R ↔ reaches (heap w) (initial self) t) → Q R w) →
  wp (collect_reachable_states self) w Q E.
Proof.
  intros HQ. destruct (collect_reachable_states_spec self w) as (R & Heq & HR).
  unfold wp. rewrite Heq. by apply HQ.
Qed.

(** The product construction: when it returns, the automaton is the
    product of its operands; it raises nothing but the exhaustion of the
    labels. *)
Lemma intersect_spec left right w :
  (∀ t, reaches (heap w) (initial left) t → allocated (heap w) t) →
  (∀ t, reaches (heap w) (initial right) t → allocated (heap w) t) →
  wp (intersect left right) w
    (λ P w', ∃ ps (RL RR : gset nat),
       (∀ t, t ∈ RL ↔ reaches (heap w) (initial left) t) ∧
       (∀ t, t ∈ RR ↔ reaches (heap w) (initial right) t) ∧
       length ps = (size RL * size RR)%nat ∧
       grown (length ps) w w' ∧
       product_of (heap w) left right ps P (heap w'))
    (λ e w', e = LabelsExhausted ∧ current_label w' > 65 + 26 ∧
       ∃ k (RL RR : gset nat),
         (∀ t, t ∈ RL ↔ reaches (heap w) (initial left) t) ∧
         (∀ t, t ∈ RR ↔ reaches (heap w) (initial right) t) ∧
         (k ≤ size RL * size RR)%nat ∧ grown k w w').
Proof.
  intros HL HR. unfold intersect.
  apply wp_bind, wp_collect_reachable_states. intros RL HRL.
  apply wp_bind, wp_collect_reachable_states. intros RR HRR.
  set (pairs := compute_pairs (iter_states RL) (iter_states RR)).
  assert (length pairs = (size RL * size RR)%nat) as Hsize.
  { unfold pairs. by rewrite length_compute_pairs, !length_iter_states. }
  assert (∀ l r, (l, r) ∈ pairs ↔
            reaches (heap w) (initial left) l ∧ reaches (heap w) (initial right) r)
    as Hpairs.
  { intros l r. unfold pairs.
    by rewrite elem_of_compute_pairs, !elem_of_iter_states, HRL, HRR. }
  assert (NoDup pairs) as Hnd
    by (apply NoDup_compute_pairs; apply NoDup_iter_states).
  apply wp_bind, wp_allocate_pairs; last first.
  { intros k w' Hk Hg Hc. split_and!; [done..|]. exists k, RL, RR.
    split_and!; [done..|lia|done]. }
  intros w1 Hg Hempty.
  set (n := length (heap w)) in *.
  set (ps := zip pairs (seq n (length pairs))).
  assert (ps.*1 = pairs) as Hps1 by (apply fst_zip; rewrite length_seq; lia).
  assert (ps.*2 = seq n (length pairs)) as Hps2
    by (apply snd_zip; rewrite length_seq; lia).
  assert (length ps = length pairs) as Hlen.
  { by rewrite <-(length_fmap fst ps), Hps1. }
  assert (∀ k p, (k, p) ∈ ps → (n ≤ p < n + length pairs)%nat) as Hrange
    by (intros k p; apply elem_of_zip_seq).
  assert (∀ l r p, ((l, r), p) ∈ ps →
            allocated (heap w) l ∧ allocated (heap w) r) as Halloc.
  { intros l r p Hin. assert ((l, r) ∈ pairs) as [??]%Hpairs.
    { rewrite <-Hps1. apply list_elem_of_fmap. by exists ((l, r), p). }
    split; [by apply HL|by apply HR]. }
  assert (∀ l r c nl nr, (∃ p, ((l, r), p) ∈ ps) →
            product_edge (heap w) l r c nl nr → ∃ q, ((nl, nr), q) ∈ ps) as Hclosed.
  { intros l r c nl nr [p Hin] [Hnl Hnr]%product_edge_reaches.
    assert ((l, r) ∈ pairs) as [??]%Hpairs.
    { rewrite <-Hps1. apply list_elem_of_fmap. by exists ((l, r), p). }
    apply zip_seq_total, Hpairs. split; by etrans. }
  destruct Hg as (Hl1 & Hc1 & Hf1 & Hd1).
  apply wp_bind.
  apply (wp_for_acc (λ done vars w2,
    current_label w2 = current_label w1 ∧
    length (heap w2) = length (heap w1) ∧
    (∀ s, s ∉ done.*2 → heap w2 !! s = heap w1 !! s) ∧
    (∀ l r p, ((l, r), p) ∈ done → ∀ c q,
       q ∈ delta (heap w2) p c ↔
       ∃ nl nr, product_edge (heap w) l r c nl nr ∧ ((nl, nr), q) ∈ ps) ∧
    (∀ p, vars.1 = Some p ↔ ((initial left, initial right), p) ∈ done) ∧
    (∀ p, p ∈ vars.2 ↔
       ∃ l r, ((l, r), p) ∈ done ∧ l ∈ accepting left ∧ r ∈ accepting right))).
  - split_and!; try done; simpl; intros; set_solver.
  - intros done [[l r] p] todo [init acc] w2 Hdone
      (Hc2 & Hl2 & Hf2 & Hd2 & Hinit & Hacc). simpl in Hinit, Hacc.
    assert (((l, r), p) ∈ ps) as Hin by (rewrite Hdone; set_solver).
    assert (p ∉ done.*2) as Hp.
    { assert (NoDup ps.*2) as Hnd2 by (rewrite Hps2; apply NoDup_seq).
      rewrite Hdone, fmap_app, fmap_cons in Hnd2.
      apply NoDup_app in Hnd2 as (_ & Hnd2 & _). intros Hp.
      apply (Hnd2 p Hp). left. }
    destruct (Halloc l r p Hin) as [Hla Hra].
    pose proof (Hrange _ _ Hin) as Hpr.
    assert (∀ s, allocated (heap w) s → heap w2 !! s = heap w !! s) as Hold.
    { intros s Hs. rewrite Hf2, Hf1; [done|alia|].
      intros (k & -> & Hk)%list_elem_of_fmap.
      assert (k ∈ ps) as Hk' by (rewrite Hdone; set_solver).
      destruct k as [k q]. apply Hrange in Hk'. simpl in Hs. alia. }
    eapply wp_mono; [apply product_step_spec| |done].
    + by rewrite Hps1.
    + alia.
    + alia.
    + alia.
    + intros c nl nr Hedge. apply (Hclosed l r c); [by eexists|].
      by apply (product_edge_lookup (heap w) (heap w2)); [apply Hold..|].
    + intros [-> ->]. destruct init as [p'|]; [|done].
      assert (((initial left, initial right), p') ∈ done) as Hp' by by apply Hinit.
      assert (NoDup ps.*1) as Hnd1 by by rewrite Hps1.
      rewrite Hdone, fmap_app, fmap_cons in Hnd1.
      apply NoDup_app in Hnd1 as (_ & Hnd1 & _).
      destruct (Hnd1 (initial left, initial right)); [|left].
      apply list_elem_of_fmap. by eexists (_, p').
    + intros [init' acc'] w3 ([= -> ->] & Hc3 & Hadd). simpl.
      destruct Hadd as (Hl3 & Hf3 & Hd3).
      split_and!; [congruence|congruence|..].
      * intros s Hs. rewrite fmap_app, elem_of_app in Hs. simpl in Hs.
        rewrite Hf3, Hf2; [done|naive_solver|].
        intros c t [-> _]. apply Hs. right. left.
      * intros l' r' p' [Hin'|[= -> -> ->]%list_elem_of_singleton]%elem_of_app c q.
        -- rewrite <-(Hd2 l' r' p' Hin' c q).
           rewrite (delta_lookup (heap w2) (heap w3)); [done|].
           apply Hf3. intros c' t' [Heq _]. apply Hp. rewrite <-Heq.
           apply list_elem_of_fmap. by eexists (_, p').
        -- rewrite Hd3. unfold delta at 1.
           rewrite (transitions_of_lookup (heap w1) (heap w2)) by by apply Hf2.
           rewrite Hempty by lia. rewrite lookup_empty. simpl.
           setoid_rewrite (product_edge_lookup (heap w) (heap w2));
             [|by apply Hold..].
           set_solver.
      * intros p'. rewrite elem_of_app, list_elem_of_singleton.
        case_decide as Hi.
        -- destruct Hi as [-> ->]. split.
           ++ intros [= ->]. by right.
           ++ intros [Hp'|[= ->]]; [|done].
              assert (NoDup ps.*1) as Hnd1 by by rewrite Hps1.
              f_equal.
              apply (NoDup_fst_functional ps (initial left, initial right));
                [done|done|].
              rewrite Hdone. set_solver.
        -- rewrite Hinit. naive_solver.
      * intros p'. setoid_rewrite elem_of_app.
        setoid_rewrite list_elem_of_singleton.
        case_decide as Ha.
        -- rewrite elem_of_union, elem_of_singleton, Hacc. naive_solver.
        -- rewrite Hacc. naive_solver.
  - intros [init acc] w2 (Hc2 & Hl2 & Hf2 & Hd2 & Hinit & Hacc).
    simpl in Hinit, Hacc.
    destruct (zip_seq_total pairs n (initial left, initial right)) as [p0 Hp0].
    { apply Hpairs. split; apply rtc_refl. }
    fold ps in Hp0. apply Hinit in Hp0 as ->. apply wp_ret.
    exists ps, RL, RR. split_and!; [done|done|lia|..].
    + rewrite Hlen. split_and!; [lia|lia|..].
      * intros s Hs. rewrite Hf2; [by apply Hf1|].
        intros ([k q] & -> & Hk%Hrange)%list_elem_of_fmap. simpl in Hs. lia.
      * intros s c t Hs Ht. fold n in Hs.
        destruct (decide (s < n + length pairs)%nat) as [Hlt|Hge].
        -- assert (s ∈ ps.*2) as (k & -> & Hk)%list_elem_of_fmap.
           { rewrite Hps2. apply elem_of_seq. lia. }
           destruct k as [[l r] p]. simpl in Ht.
           apply (Hd2 l r p Hk) in Ht as (nl & nr & _ & Hq).
           apply Hrange in Hq. fold n. alia.
        -- apply delta_allocated in Ht. alia.
    + unfold product_of. rewrite Hps1, Hps2, Hlen. fold n.
      split_and!; [done|done|lia| |by apply Hinit|done|done].
      intros l r. rewrite <-Hpairs. split.
      * intros [p Hin]. rewrite <-Hps1. apply list_elem_of_fmap.
        by exists ((l, r), p).
      * apply zip_seq_total.
Qed.

(** With labels left for every couple of reachable states, the product
    construction returns. *)
Lemma intersect_returns left right w (RL RR : gset nat) :
  closed (heap w) →
  allocated (heap w) (initial left) → allocated (heap w) (initial right) →
  collect_reachable_states left w = (Ok RL, w) →
  collect_reachable_states right w = (Ok RR, w) →
  current_label w + Z.of_nat (size RL * size RR) ≤ 65 + 26 →
  ∃ P w', intersect left right w = (Ok P, w').
Proof.
  intros Hcl Hl Hr HRL HRR Hroom.
  assert (∀ A, allocated (heap w) (initial A) →
            ∀ t, reaches (heap w) (initial A) t → allocated (heap w) t) as Hreach.
  { intros A HA t Ht. by eapply closed_reaches_allocated. }
  destruct (intersect left right w) as [[P|e] w'] eqn:Heq; [by eauto|].
  pose proof (wp_err _ _ _ _ _ _
                (intersect_spec left right w (Hreach _ Hl) (Hreach _ Hr)) Heq)
    as (_ & Hpast & k & RL' & RR' & HRL' & HRR' & Hk & (_ & Hc & _)).
  destruct (collect_reachable_states_spec left w) as (RL0 & HeqL & HRL0).
  destruct (collect_reachable_states_spec right w) as (RR0 & HeqR & HRR0).
  assert (RL' = RL) as ->.
  { rewrite HRL in HeqL. injection HeqL as ->. apply set_eq. intros t.
    by rewrite HRL', HRL0. }
  assert (RR' = RR) as ->.
  { rewrite HRR in HeqR. injection HeqR as ->. apply set_eq. intros t.
    by rewrite HRR', HRR0. }
  lia.
Qed.

End Product.

(** ** What every build establishes *)

Section Build.
Context `{order : !IterOrder}.

Lemma built_allocated k w A w' s :
  built k w A w' → s ∈ accepting A → allocated (heap w') s.
Proof. intros (_ & _ & Hacc) Hs. by apply Hacc. Qed.

(** States of an automaton built before [w1] still reach the same states
    however the world grows after [w1]. *)
Lemma grown_reaches_old k1 k2 w w1 w2 s t :
  grown k1 w w1 → grown k2 w1 w2 → fresh w w1 s →
  reaches (heap w2) s t → fresh w w1 t ∧ reaches (heap w1) s t.
Proof.
  intros (_ & _ & _ & Hd1) (_ & _ & Hf2 & _) Hs Hst.
  induction Hst as [|s u t [c Hsu] _ IH]; [split; [done|apply rtc_refl]|].
  rewrite (delta_lookup (heap w1)) in Hsu by (apply Hf2; alia).
  destruct Hs as [Hs Hs']. pose proof (Hd1 _ _ _ Hs Hsu) as Hu.
  destruct (IH Hu) as [Ht Hut]. split; [done|].
  eapply rtc_l; [by exists c|done].
Qed.

Lemma size_fresh (R : gset nat) k w w' :
  length (heap w') = (length (heap w) + k)%nat →
  (∀ t, t ∈ R → fresh w w' t) → (size R ≤ k)%nat.
Proof.
  intros Hlen HR. rewrite <-(size_set_seq (C:=gset nat) (length (heap w)) k).
  apply subseteq_size. intros t Ht%HR. apply elem_of_set_seq. alia.
Qed.

Lemma built_union k1 k2 w w1 w2 w3 left right :
  built k1 w left w1 → built k2 w1 right w2 →
  current_label w3 = current_label w2 + 1 →
  edges_added (λ s k t, s = length (heap w2) ∧ k = EPSILON ∧
                        (t = initial left ∨ t = initial right))
              (heap (allocate w2)) (heap w3) →
  built (k1 + k2 + 1) w
    (mkNFA (length (heap w2)) (accepting left ∪ accepting right)) w3.
Proof.
  intros (Hg1 & Hi1 & Ha1) (Hg2 & Hi2 & Ha2) Hc Hadd.
  pose proof (grown_trans _ _ _ _ _ (grown_trans _ _ _ _ _ Hg1 Hg2)
                (grown_allocate w2)) as Hg.
  pose proof Hg1 as (Hl1 & _). pose proof Hg2 as (Hl2 & _).
  pose proof Hg as (Hl & _). pose proof Hadd as (Hl3 & _).
  split_and!.
  - eapply grown_edges; [done..|].
    intros s c t (-> & _ & [->| ->]); alia.
  - simpl. alia.
  - simpl. intros s [Hs%Ha1|Hs%Ha2]%elem_of_union; alia.
Qed.

Lemma built_concat k1 k2 w w1 w2 w3 left right :
  built k1 w left w1 → built k2 w1 right w2 →
  current_label w3 = current_label w2 →
  edges_added (λ s k t, s ∈ accepting left ∧ k = EPSILON ∧ t = initial right)
              (heap w2) (heap w3) →
  built (k1 + k2) w (mkNFA (initial left) (accepting right)) w3.
Proof.
  intros (Hg1 & Hi1 & Ha1) (Hg2 & Hi2 & Ha2) Hc Hadd.
  pose proof (grown_trans _ _ _ _ _ Hg1 Hg2) as Hg.
  pose proof Hg1 as (Hl1 & _). pose proof Hg2 as (Hl2 & _).
  pose proof Hadd as (Hl3 & _).
  split_and!.
  - eapply grown_edges; [done..|].
    intros s c t (Hs%Ha1 & _ & ->); alia.
  - simpl. alia.
  - simpl. intros s Hs%Ha2; alia.
Qed.

Lemma built_kleene_star k1 w w1 w2 root :
  built k1 w root w1 →
  current_label w2 = current_label w1 + 1 →
  edges_added (λ s k t, (s = length (heap w1) ∨ s ∈ accepting root) ∧
                        k = EPSILON ∧ t = initial root)
              (heap (allocate w1)) (heap w2) →
  built (k1 + 1) w
    (mkNFA (length (heap w1)) ({[length (heap w1)]} ∪ accepting root)) w2.
Proof.
  intros (Hg1 & Hi1 & Ha1) Hc Hadd.
  pose proof (grown_trans _ _ _ _ _ Hg1 (grown_allocate w1)) as Hg.
  pose proof Hg1 as (Hl1 & _). pose proof Hg as (Hl & _).
  pose proof Hadd as (Hl3 & _).
  split_and!.
  - eapply grown_edges; [done..|].
    intros s c t ([->|Hs%Ha1] & _ & ->); alia.
  - simpl. alia.
  - simpl. intros s [->%elem_of_singleton|Hs%Ha1]%elem_of_union; alia.
Qed.

Lemma product_of_fresh w w' left right ps P k p :
  product_of (heap w) left right ps P (heap w') → (k, p) ∈ ps → fresh w w' p.
Proof.
  intros (_ & Hps2 & Hlen & _) Hin. assert (p ∈ ps.*2) as Hp.
  { apply list_elem_of_fmap. by exists (k, p). }
  rewrite Hps2 in Hp. apply elem_of_seq in Hp. alia.
Qed.

Lemma built_product k1 k2 w w1 w2 w3 left right ps P :
  built k1 w left w1 → built k2 w1 right w2 →
  grown (length ps) w2 w3 →
  product_of (heap w2) left right ps P (heap w3) →
  built (k1 + k2 + length ps) w P w3.
Proof.
  intros (Hg1 & Hi1 & Ha1) (Hg2 & Hi2 & Ha2) Hg3 (_ & Hps2 & Hl3 & _ & Hinit & Hacc & _).
  pose proof Hg1 as (Hl1 & _). pose proof Hg2 as (Hl2 & _).
  assert (∀ k p, (k, p) ∈ ps → fresh w w3 p) as Hrange.
  { intros k p Hin. assert (p ∈ ps.*2) as Hp.
    { apply list_elem_of_fmap. by exists (k, p). }
    rewrite Hps2 in Hp. apply elem_of_seq in Hp. alia. }
  split_and!.
  - eapply grown_trans; [by eapply grown_trans|done].
  - by eapply Hrange.
  - intros p (l & r & Hin & _)%Hacc. by eapply Hrange.
Qed.

(** The invariant of the builder, by induction on the syntax tree. When
    [parse_regex_token] returns, every node of the tree is known, and
    the automaton is made of at most [states_bound token] states, all
    allocated by this call, which changed no older state. When it
    raises, it is either for want of labels, in a world whose counter is
    past the ceiling, or for a node it does not know. *)
Theorem parse_regex_token_built token : ∀ w,
  wp (parse_regex_token token) w
    (λ A w', recognized token = true ∧
             ∃ k, (k ≤ states_bound token)%nat ∧ built k w A w')
    (λ e w', ∃ k, (k ≤ states_bound token)%nat ∧ grown k w w' ∧
             (e = LabelsExhausted ∧ current_label w' > 65 + 26 ∨
              construction_error e = true ∧ recognized token = false)).
Proof.
  induction token as [id|l IHl r IHr|l IHl r IHr|l IHl r IHr|t IHt|t _|l _ r _| |];
    intros w.
  - (* literal *)
    change (parse_regex_token (LiteralToken id)) with (parse_literal_token id).
    apply wp_intro.
    + intros A w' Heq. destruct (decide (current_label w ≤ 65 + 26 - 1)) as [Hc|Hc].
      * rewrite (parse_literal_token_ok id w Hc) in Heq. simplify_eq.
        split; [done|]. exists 2%nat. split; [done|].
        pose proof (grown_trans _ _ _ _ _ (grown_allocate w)
                      (grown_allocate (allocate w))) as Hg.
        pose proof Hg as (Hl & _). pose proof Hl as Hl'. simpl in Hl'.
        split_and!.
        -- eapply (grown_edges _ _ _ (allocate (allocate w))); [done|simpl; lia| |].
           ++ apply edges_added_add_edge. simpl. alia.
           ++ intros s c t (-> & _ & ->). alia.
        -- unfold fresh, allocated. simpl. rewrite length_add_edge. lia.
        -- simpl. intros s ->%elem_of_singleton.
           unfold fresh, allocated. simpl. rewrite length_add_edge. lia.
      * destruct (parse_literal_token_exhausted id w) as (w0 & Heq' & _); [lia|].
        congruence.
    + intros e w' Heq. destruct (decide (current_label w ≤ 65 + 26 - 1)) as [Hc|Hc].
      * rewrite (parse_literal_token_ok id w Hc) in Heq. done.
      * destruct (parse_literal_token_exhausted id w) as (w0 & Heq' & Hc' & k & Hk & Hg);
          [lia|]. rewrite Heq' in Heq. injection Heq as <- <-.
        exists k. split_and!; [simpl; lia|done|by left].
  - (* union *)
    change (parse_regex_token (UnionToken l r))
      with (parse_union_token parse_regex_token l r).
    unfold parse_union_token. apply wp_bind.
    eapply wp_mono; [apply IHl| |]; simpl.
    2:{ intros e w1 (k & Hk & Hg & He). exists k. split_and!; [lia|done|].
        destruct He as [?|[? ->]]; [by left|by right]. }
    intros left w1 (Hrl & k1 & Hk1 & Hb1). apply wp_bind.
    eapply wp_mono; [apply IHr| |]; simpl.
    2:{ intros e w2 (k & Hk & Hg & He). exists (k1 + k)%nat.
        split_and!; [lia|eapply grown_trans; [apply Hb1|done]|].
        destruct He as [?|[? ->]]; [by left|right]. by rewrite andb_false_r. }
    intros right w2 (Hrr & k2 & Hk2 & Hb2).
    eapply wp_mono; [apply union_of_spec| |]; simpl.
    + intros A w3 (Hc & -> & Hc3 & Hadd). split; [by rewrite Hrl, Hrr|].
      exists (k1 + k2 + 1)%nat. split; [lia|]. by eapply built_union.
    + intros e w3 (-> & -> & Hc). exists (k1 + k2)%nat.
      split_and!; [lia|eapply grown_trans; [apply Hb1|apply Hb2]|by left].
  - (* intersection *)
    change (parse_regex_token (IntersectionToken l r))
      with (parse_intersection_token parse_regex_token l r).
    unfold parse_intersection_token. apply wp_bind.
    eapply wp_mono; [apply IHl| |]; simpl.
    2:{ intros e w1 (k & Hk & Hg & He). exists k. split_and!; [lia|done|].
        destruct He as [?|[? ->]]; [by left|by right]. }
    intros left w1 (Hrl & k1 & Hk1 & Hb1). apply wp_bind.
    eapply wp_mono; [apply IHr| |]; simpl.
    2:{ intros e w2 (k & Hk & Hg & He). exists (k1 + k)%nat.
        split_and!; [lia|eapply grown_trans; [apply Hb1|done]|].
        destruct He as [?|[? ->]]; [by left|right]. by rewrite andb_false_r. }
    intros right w2 (Hrr & k2 & Hk2 & Hb2).
    pose proof Hb1 as (Hg1 & Hi1 & _). pose proof Hb2 as (Hg2 & Hi2 & _).
    assert (∀ (RL RR : gset nat),
      (∀ t, t ∈ RL ↔ reaches (heap w2) (initial left) t) →
      (∀ t, t ∈ RR ↔ reaches (heap w2) (initial right) t) →
      (size RL * size RR ≤ states_bound l * states_bound r)%nat) as Hsize.
    { intros RL RR HRL HRR.
      assert (size RL ≤ k1)%nat.
      { apply (size_fresh _ _ w w1); [apply Hg1|].
        intros t Ht%HRL. by eapply grown_reaches_old. }
      assert (size RR ≤ k2)%nat.
      { apply (size_fresh _ _ w1 w2); [apply Hg2|].
        intros t Ht%HRR. by eapply grown_reaches_fresh. }
      nia. }
    eapply wp_mono; [apply intersect_spec| |]; simpl.
    + intros t Ht. eapply (grown_reaches_fresh _ w w2); [|  |done].
      * by eapply grown_trans.
      * destruct Hg2 as (Hl2 & _). alia.
    + intros t Ht. by eapply (grown_reaches_fresh _ w1 w2).
    + intros P w3 (ps & RL & RR & HRL & HRR & Hlen & Hg3 & Hprod).
      split; [by rewrite Hrl, Hrr|].
      exists (k1 + k2 + length ps)%nat. split.
      * specialize (Hsize RL RR HRL HRR). lia.
      * by eapply built_product.
    + intros e w3 (-> & Hc & k & RL & RR & HRL & HRR & Hk & Hg3).
      exists (k1 + k2 + k)%nat. split_and!.
      * specialize (Hsize RL RR HRL HRR). lia.
      * eapply grown_trans; [by eapply grown_trans|done].
      * by left.
  - (* concatenation *)
    change (parse_regex_token (ConcatToken l r))
      with (parse_concat_token parse_regex_token l r).
    unfold parse_concat_token. apply wp_bind.
    eapply wp_mono; [apply IHl| |]; simpl.
    2:{ intros e w1 (k & Hk & Hg & He). exists k. split_and!; [lia|done|].
        destruct He as [?|[? ->]]; [by left|by right]. }
    intros left w1 (Hrl & k1 & Hk1 & Hb1). apply wp_bind.
    eapply wp_mono; [apply IHr| |]; simpl.
    2:{ intros e w2 (k & Hk & Hg & He). exists (k1 + k)%nat.
        split_and!; [lia|eapply grown_trans; [apply Hb1|done]|].
        destruct He as [?|[? ->]]; [by left|right]. by rewrite andb_false_r. }
    intros right w2 (Hrr & k2 & Hk2 & Hb2).
    eapply wp_mono; [apply concat_of_spec| |done]; simpl.
    + intros s Hs. destruct Hb1 as (Hg1 & _ & Ha1). destruct Hb2 as ((Hl2 & _) & _).
      apply Ha1 in Hs. alia.
    + intros A w3 (-> & Hc3 & Hadd). split; [by rewrite Hrl, Hrr|].
      exists (k1 + k2)%nat. split; [lia|]. by eapply built_concat.
  - (* star *)
    change (parse_regex_token (KleeneStarToken t))
      with (parse_kleene_star_token parse_regex_token t).
    unfold parse_kleene_star_token. apply wp_bind.
    eapply wp_mono; [apply IHt| |]; simpl.
    2:{ intros e w1 (k & Hk & Hg & He). exists k. split_and!; [lia|done|done]. }
    intros root w1 (Hrt & k1 & Hk1 & Hb1).
    eapply wp_mono; [apply kleene_star_of_spec| |]; simpl.
    + intros s Hs. by eapply built_allocated.
    + intros A w2 (Hc & -> & Hc2 & Hadd). split; [done|].
      exists (k1 + 1)%nat. split; [lia|]. by eapply built_kleene_star.
    + intros e w2 (-> & -> & Hc). exists k1.
      split_and!; [lia|apply Hb1|by left].
  - exists 0%nat. split_and!; [done|apply grown_refl|by right].
  - exists 0%nat. split_and!; [done|apply grown_refl|by right].
  - exists 0%nat. split_and!; [done|apply grown_refl|by right].
  - exists 0%nat. split_and!; [done|apply grown_refl|by right].
Qed.

End Build.

(** ** Trees without intersection *)

Section IntersectionFree.
Context `{order : !IterOrder}.

Lemma extends_allocate w : extends (heap w) (heap (allocate w)).
Proof. intros s c t Ht. simpl. by rewrite delta_alloc. Qed.

(** In an automaton built from a tree without intersection, there is an
    accepting state, and every accepting state can be reached from the
    initial state. *)
Lemma intersection_free_accepting_reached token : ∀ w A w',
  intersection_free token = true →
  parse_regex_token token w = (Ok A, w') →
  (∃ s, s ∈ accepting A) ∧
  (∀ s, s ∈ accepting A → reaches (heap w') (initial A) s).
Proof.
  induction token as [id|l IHl r IHr|l IHl r IHr|l IHl r IHr|t IHt|t _|l _ r _| |];
    intros w A w' Hfree Heq; try done.
  - (* literal *)
    change (parse_regex_token (LiteralToken id)) with (parse_literal_token id) in Heq.
    destruct (decide (current_label w ≤ 65 + 26 - 1)) as [Hc|Hc].
    2:{ destruct (parse_literal_token_exhausted id w) as (w0 & Heq' & _); [lia|].
        congruence. }
    rewrite (parse_literal_token_ok id w Hc) in Heq. injection Heq as <- <-.
    simpl. split; [exists (S (length (heap w))); set_solver|].
    intros s ->%elem_of_singleton. apply rtc_once. exists id.
    rewrite delta_add_edge.
    + rewrite decide_True by done. set_solver.
    + unfold allocated. simpl. rewrite !length_app. simpl. lia.
  - (* union *)
    simpl in Hfree. apply andb_prop in Hfree as [Hfl Hfr].
    change (parse_regex_token (UnionToken l r))
      with (parse_union_token parse_regex_token l r) in Heq.
    apply bind_ok_inv in Heq as (left & w1 & Hleft & Heq).
    apply bind_ok_inv in Heq as (right & w2 & Hright & Hunion).
    destruct (IHl _ _ _ Hfl Hleft) as [[sl Hsl] Hrl].
    destruct (IHr _ _ _ Hfr Hright) as [_ Hrr].
    pose proof (wp_ok _ _ _ _ _ _ (parse_regex_token_built r w1) Hright)
      as (_ & k2 & _ & Hg2 & _).
    pose proof (wp_ok _ _ _ _ _ _ (union_of_spec left right w2) Hunion)
      as (_ & -> & _ & Hadd).
    simpl. split; [exists sl; set_solver|].
    assert (extends (heap w2) (heap w')) as Hext2.
    { eapply extends_trans; [apply extends_allocate|by eapply edges_added_extends]. }
    assert (extends (heap w1) (heap w')) as Hext1.
    { eapply extends_trans; [by eapply grown_extends|done]. }
    destruct Hadd as (_ & _ & Hd).
    intros s [Hs|Hs]%elem_of_union.
    + apply (rtc_l _ _ (initial left)); [exists EPSILON; apply Hd; right; eauto|].
      by eapply extends_reaches; [|apply Hrl].
    + apply (rtc_l _ _ (initial right)); [exists EPSILON; apply Hd; right; eauto|].
      by eapply extends_reaches; [|apply Hrr].
  - (* concatenation *)
    simpl in Hfree. apply andb_prop in Hfree as [Hfl Hfr].
    change (parse_regex_token (ConcatToken l r))
      with (parse_concat_token parse_regex_token l r) in Heq.
    apply bind_ok_inv in Heq as (left & w1 & Hleft & Heq).
    apply bind_ok_inv in Heq as (right & w2 & Hright & Hcat).
    destruct (IHl _ _ _ Hfl Hleft) as [[sl Hsl] Hrl].
    destruct (IHr _ _ _ Hfr Hright) as [Hne Hrr].
    pose proof (wp_ok _ _ _ _ _ _ (parse_regex_token_built l w) Hleft)
      as (_ & k1 & _ & Hg1 & _ & Ha1).
    pose proof (wp_ok _ _ _ _ _ _ (parse_regex_token_built r w1) Hright)
      as (_ & k2 & _ & Hg2 & _).
    assert (∀ s, s ∈ accepting left → allocated (heap w2) s) as Hacc.
    { intros s Hs%Ha1. destruct Hg2 as (Hl2 & _). alia. }
    pose proof (wp_ok _ _ _ _ _ _ (concat_of_spec left right w2 Hacc) Hcat)
      as (-> & _ & Hadd).
    simpl. split; [done|].
    assert (extends (heap w2) (heap w')) as Hext2 by by eapply edges_added_extends.
    assert (extends (heap w1) (heap w')) as Hext1.
    { eapply extends_trans; [by eapply grown_extends|done]. }
    destruct Hadd as (_ & _ & Hd).
    intros s Hs. etrans; [by eapply extends_reaches; [|apply (Hrl sl)]|].
    apply (rtc_l _ _ (initial right)); [exists EPSILON; apply Hd; right; eauto|].
    by eapply extends_reaches; [|apply Hrr].
  - (* star *)
    simpl in Hfree.
    change (parse_regex_token (KleeneStarToken t))
      with (parse_kleene_star_token parse_regex_token t) in Heq.
    apply bind_ok_inv in Heq as (root & w1 & Hroot & Hstar).
    destruct (IHt _ _ _ Hfree Hroot) as [_ Hrt].
    pose proof (wp_ok _ _ _ _ _ _ (parse_regex_token_built t w) Hroot)
      as (_ & k1 & _ & Hb1).
    assert (∀ s, s ∈ accepting root → allocated (heap w1) s) as Hacc
      by (intros s; by eapply built_allocated).
    pose proof (wp_ok _ _ _ _ _ _ (kleene_star_of_spec root w1 Hacc) Hstar)
      as (_ & -> & _ & Hadd).
    simpl. split; [exists (length (heap w1)); set_solver|].
    assert (extends (heap w1) (heap w')) as Hext1.
    { eapply extends_trans; [apply extends_allocate|by eapply edges_added_extends]. }
    destruct Hadd as (_ & _ & Hd).
    intros s [->%elem_of_singleton|Hs]%elem_of_union; [apply rtc_refl|].
    apply (rtc_l _ _ (initial root)); [exists EPSILON; apply Hd; right; eauto|].
    by eapply extends_reaches; [|apply Hrt].
Qed.

End IntersectionFree.

(** ** The language of a product *)

Lemma delta_dom h s literal t :
  t ∈ delta h s literal → literal ∈ dom (transitions_of h s).
Proof.
  unfold delta. intros Ht. apply elem_of_dom.
  destruct (transitions_of h s !! literal); [done|set_solver].
Qed.

Lemma run_trans h s word1 t word2 u :
  run h s word1 t → run h t word2 u → run h s (word1 ++ word2) u.
Proof.
  intros Hst Htu. induction Hst; simpl.
  - done.
  - eapply run_epsilon; [done|]. by apply IHHst.
  - eapply run_symbol; [done..|]. by apply IHHst.
Qed.

(** A run that reads a symbol first makes silent moves, then the move
    that reads it. *)
Lemma run_first_symbol h r literal word r' :
  run h r (literal :: word) r' →
  ∃ r1 r2, run h r [] r1 ∧ literal ≠ EPSILON ∧
           r2 ∈ delta h r1 literal ∧ run h r2 word r'.
Proof.
  intros Hrun. remember (literal :: word) as cw eqn:Hcw.
  induction Hrun as [|s t cw u Hst Hrun IH|s c t cw u Hc Hst Hrun IH]; [done|..].
  - destruct (IH Hcw) as (r1 & r2 & Hr1 & Hne & Hr2 & Hrest).
    exists r1, r2. split_and!; [|done..]. by eapply run_epsilon.
  - injection Hcw as -> ->. exists s, t. split_and!; [apply run_stop|done..].
Qed.

(** Runs between states of a closed heap are not changed by what is
    allocated or changed outside of it. *)
Lemma run_old h h' s word t :
  closed h → (∀ s, allocated h s → h' !! s = h !! s) → allocated h s →
  run h' s word t ↔ run h s word t.
Proof.
  intros Hcl Hold Hs. split.
  - intros Hrun. induction Hrun as [|s t word u Hst Hrun IH|s c t word u Hc Hst Hrun IH].
    + apply run_stop.
    + rewrite (delta_lookup h) in Hst by by apply Hold.
      eapply run_epsilon; [done|]. apply IH. by eapply Hcl.
    + rewrite (delta_lookup h) in Hst by by apply Hold.
      eapply run_symbol; [done..|]. apply IH. by eapply Hcl.
  - intros Hrun. induction Hrun as [|s t word u Hst Hrun IH|s c t word u Hc Hst Hrun IH].
    + apply run_stop.
    + eapply run_epsilon; [by rewrite (delta_lookup h) by by apply Hold|].
      apply IH. by eapply Hcl.
    + eapply run_symbol; [done|by rewrite (delta_lookup h) by by apply Hold|].
      apply IH. by eapply Hcl.
Qed.

Section ProductLanguage.
Variables (h h' : list State) (left right P : NFA) (ps : list ((nat * nat) * nat)).
Hypothesis Hprod : product_of h left right ps P h'.

Lemma product_closed l r p literal nl nr :
  ((l, r), p) ∈ ps → product_edge h l r literal nl nr →
  ∃ q, ((nl, nr), q) ∈ ps ∧ q ∈ delta h' p literal.
Proof.
  destruct Hprod as (_ & _ & _ & Hdom & _ & _ & Hdelta).
  intros Hin Hedge. pose proof Hedge as [Hnl Hnr]%product_edge_reaches.
  assert (∃ p, ((l, r), p) ∈ ps) as [Hl Hr]%Hdom by by eexists.
  destruct (proj2 (Hdom nl nr)) as [q Hq]; [split; by etrans|].
  exists q. split; [done|]. apply (Hdelta l r p Hin). eauto.
Qed.

Lemma product_state_unique k k' p :
  (k, p) ∈ ps → (k', p) ∈ ps → k = k'.
Proof.
  destruct Hprod as (_ & Hps2 & _). apply NoDup_snd_functional.
  rewrite Hps2. apply NoDup_seq.
Qed.

(** A run of the product is a run of each operand on the same word. *)
Lemma product_run_project p word q :
  run h' p word q → ∀ l r, ((l, r), p) ∈ ps →
  ∃ l' r', ((l', r'), q) ∈ ps ∧ run h l word l' ∧ run h r word r'.
Proof.
  destruct Hprod as (_ & _ & _ & _ & _ & _ & Hdelta).
  intros Hrun. induction Hrun as [p|p t word q Hpt Hrun IH|p c t word q Hc Hpt Hrun IH];
    intros l r Hin.
  - exists l, r. split_and!; [done|apply run_stop..].
  - apply (Hdelta l r p Hin) in Hpt as (nl & nr & Hedge & Ht).
    destruct (IH nl nr Ht) as (l' & r' & Hq & Hl & Hr).
    exists l', r'. split; [done|].
    destruct Hedge as [(Hne & _)|(_ & _ & Hnl & Hnr)]; [done|].
    split.
    + apply elem_of_union in Hnl as [Hnl| ->%elem_of_singleton]; [|done].
      by eapply run_epsilon.
    + apply elem_of_union in Hnr as [Hnr| ->%elem_of_singleton]; [|done].
      by eapply run_epsilon.
  - apply (Hdelta l r p Hin) in Hpt as (nl & nr & Hedge & Ht).
    destruct (IH nl nr Ht) as (l' & r' & Hq & Hl & Hr).
    exists l', r'. split; [done|].
    destruct Hedge as [(_ & Hnl & Hnr)|(He & _)]; [|done].
    split; by eapply run_symbol.
Qed.

(** Silent moves of the right operand are silent moves of the product
    in which the left operand stays where it is. *)
Lemma product_run_right_idle r r' :
  run h r [] r' → ∀ l p, ((l, r), p) ∈ ps →
  ∃ q, ((l, r'), q) ∈ ps ∧ run h' p [] q.
Proof.
  intros Hrun. remember [] as word eqn:Hword.
  induction Hrun as [r|r t word r' Hrt Hrun IH|]; [|subst|done]; intros l p Hin.
  - exists p. split; [done|apply run_stop].
  - destruct (product_closed l r p EPSILON l t Hin) as (q1 & Hq1 & Hpq1).
    { right. split_and!; [done|right; by eapply delta_dom|set_solver..]. }
    destruct (IH eq_refl l q1 Hq1) as (q & Hq & Hrun').
    exists q. split; [done|]. by eapply run_epsilon.
Qed.

(** Two runs on the same word, one of each operand, make a run of the
    product. *)
Lemma product_run_lift l word l' :
  run h l word l' → ∀ r r' p, run h r word r' → ((l, r), p) ∈ ps →
  ∃ q, ((l', r'), q) ∈ ps ∧ run h' p word q.
Proof.
  intros Hrun. induction Hrun as [l|l t word l' Hlt Hrun IH|l c t word l' Hc Hlt Hrun IH];
    intros r r' p Hright Hin.
  - by apply (product_run_right_idle r r').
  - destruct (product_closed l r p EPSILON t r Hin) as (q1 & Hq1 & Hpq1).
    { right. split_and!; [done|left; by eapply delta_dom|set_solver..]. }
    destruct (IH r r' q1 Hright Hq1) as (q & Hq & Hrun').
    exists q. split; [done|]. by eapply run_epsilon.
  - apply run_first_symbol in Hright as (r1 & r2 & Hr1 & _ & Hr2 & Hrest).
    destruct (product_run_right_idle r r1 Hr1 l p Hin) as (q1 & Hq1 & Hrun1).
    destruct (product_closed l r1 q1 c t r2 Hq1) as (q2 & Hq2 & Hpq2).
    { by left. }
    destruct (IH r2 r' q2 Hrest Hq2) as (q & Hq & Hrun').
    exists q. split; [done|].
    apply (run_trans _ _ [] q1 (c :: word)); [done|].
    by eapply run_symbol.
Qed.

(** The product accepts the words that both operands accept. *)
Lemma product_language word :
  accepts h' P word ↔ accepts h left word ∧ accepts h right word.
Proof.
  pose proof Hprod as (_ & _ & _ & _ & Hinit & Hacc & _).
  unfold accepts. split.
  - intros (q & Hq & Hrun). apply Hacc in Hq as (l & r & Hlr & Hl & Hr).
    destruct (product_run_project _ _ _ Hrun _ _ Hinit) as (l' & r' & Hq & Hl' & Hr').
    assert ((l', r') = (l, r)) as [= -> ->] by by eapply product_state_unique.
    split; eauto.
  - intros [(l & Hl & Hrunl) (r & Hr & Hrunr)].
    destruct (product_run_lift _ _ _ Hrunl _ _ _ Hrunr Hinit) as (q & Hq & Hrun).
    exists q. split; [|done]. apply Hacc. eauto.
Qed.

End ProductLanguage.

Lemma closed_check_correct h : closed_check h → closed h.
Proof.
  intros Hall s c t Ht. unfold delta, transitions_of in Ht.
  destruct (h !! s) as [st|] eqn:Hs; [|set_solver].
  destruct (transitions st !! c) as [ns|] eqn:Hc; [|set_solver].
  unfold closed_check in Hall. rewrite Forall_forall in Hall.
  assert (st ∈ h) as Hst by by eapply list_elem_of_lookup_2.
  by apply (Hall st Hst c ns Hc t).
Qed.

(** ** Epsilon elimination *)

Section EliminationFacts.
Context `{order : !IterOrder}.















End EliminationFacts.

(** ** The builder at work *)

(** The regex [a], from the world of a fresh module: states [A] and
    [B], a transition from [A] to [B] under [a]. *)
Example build_a :
  @parse_regex_token canonical_order (LiteralToken chr_a) initial_world
  = (Ok {| initial := 0; accepting := {[1%nat]} |},
     {| current_label := 67;
        heap := [ {| _label := 65; transitions := {[chr_a := {[1%nat]}]} |};
                  {| _label := 66; transitions := ∅ |} ] |}).
Proof. vm_compute. reflexivity. Qed.

(** The regex [a.b]: one [EPSILON] bridge from the accepting state of
    [a] to the initial state of [b]. *)
Example build_a_then_b :
  @parse_regex_token canonical_order
     (ConcatToken (LiteralToken chr_a) (LiteralToken chr_b)) initial_world
  = (Ok {| initial := 0; accepting := {[3%nat]} |},
     {| current_label := 69;
        heap := [ {| _label := 65; transitions := {[chr_a := {[1%nat]}]} |};
                  {| _label := 66; transitions := {[EPSILON := {[2%nat]}]} |};
                  {| _label := 67; transitions := {[chr_b := {[3%nat]}]} |};
                  {| _label := 68; transitions := ∅ |} ] |}).
Proof. vm_compute. reflexivity. Qed.

(** The regex [a*]: the new state [C] is initial and accepting, and
    [EPSILON] leads back to the initial state of [a] from [B] and [C]. *)
Example build_star_a :
  @parse_regex_token canonical_order star_a initial_world
  = (Ok {| initial := 2; accepting := {[2%nat; 1%nat]} |},
     {| current_label := 68;
        heap := [ {| _label := 65; transitions := {[chr_a := {[1%nat]}]} |};
                  {| _label := 66; transitions := {[EPSILON := {[0%nat]}]} |};
                  {| _label := 67; transitions := {[EPSILON := {[0%nat]}]} |} ] |}).
Proof. vm_compute. reflexivity. Qed.

(** The twenty-eighth [State()] of a run is the first to fail: the
    twenty-seventh finds the counter at [65 + 26] and passes the guard. *)
Example twenty_eighth_state_fails :
  (State_init (Nat.iter 26 allocate initial_world)).1 = Ok 26%nat ∧
  current_label (Nat.iter 27 allocate initial_world) = 65 + 27 ∧
  (State_init (Nat.iter 27 allocate initial_world)).1 = Raise LabelsExhausted.
Proof. vm_compute. done. Qed.

(** * The specification, statement by statement *)

Section Specification.
Context `{order : !IterOrder}.

(** C7. For every automaton, the traversal finishes, and the set it
    returns contains the initial state and is closed under every
    transition, whatever its label, [EPSILON] included; it is the set of
    the states that can be reached from the initial state. *)
Theorem collect_reachable_states_closed (self : NFA) (w : World) :
  ∃ R, collect_reachable_states self w = (Ok R, w) ∧
       initial self ∈ R ∧
       (∀ s literal t, s ∈ R → t ∈ delta (heap w) s literal → t ∈ R) ∧
       (∀ t, t ∈ R ↔ reaches (heap w) (initial self) t).
Proof.
  destruct (collect_reachable_states_spec self w) as (R & Heq & HR).
  exists R. split_and!; [done| | |done].
  - apply HR, rtc_refl.
  - intros s c t Hs%HR Ht. apply HR. eapply rtc_r; [done|]. by exists c.
Qed.

(** C8. A node of a class the builder does not know makes
    [parse_regex_token] raise one of the "Unexpected ... token"
    exceptions at once: no automaton is returned and the world is as it
    was. A tree made of literal, union, intersection, concatenation and
    star nodes only never raises one of them. *)
Theorem unrecognized_node_fails :
  (∀ token w, unrecognized_root token = true →
     ∃ e, construction_error e = true ∧
          parse_regex_token token w = (Raise e, w)) ∧
  (∀ token w e w', recognized token = true →
     parse_regex_token token w = (Raise e, w') →
     construction_error e = false).
Proof.
  split.
  - intros token w Hroot. destruct token; try done.
    + by exists UnexpectedUnaryOpToken.
    + by exists UnexpectedBinaryOpToken.
    + by exists UnexpectedOperatorToken.
    + by exists UnexpectedToken.
  - intros token w e w' Hrec Heq.
    pose proof (wp_err _ _ _ _ _ _ (parse_regex_token_built token w) Heq)
      as (k & _ & _ & [[-> _]|[_ Hf]]); [done|congruence].
Qed.

(** C3, as amended. The labels have a ceiling: [State()] raises once
    the counter has passed [65 + 26]. A tree whose bound on states fits
    under the ceiling is built without that exception, and is built
    altogether when all its nodes are known. *)
Theorem allocation_within_ceiling (token : RegexToken) (w : World) :
  current_label w + Z.of_nat (states_bound token) ≤ 65 + 26 →
  (∀ e w', parse_regex_token token w = (Raise e, w') → e ≠ LabelsExhausted) ∧
  (recognized token = true →
   ∃ A w', parse_regex_token token w = (Ok A, w')).
Proof.
  intros Hroom.
  assert (∀ e w', parse_regex_token token w = (Raise e, w') →
            construction_error e = true ∧ recognized token = false) as Herr.
  { intros e w' Heq.
    pose proof (wp_err _ _ _ _ _ _ (parse_regex_token_built token w) Heq)
      as (k & Hk & (_ & Hc & _) & [[_ Hpast]|?]); [lia|done]. }
  split.
  - intros e w' [He _]%Herr ->. done.
  - intros Hrec. destruct (parse_regex_token token w) as [[A|e] w'] eqn:Heq;
      [by eauto|].
    destruct (Herr e w' eq_refl). congruence.
Qed.

(** C9. When two labels are left, building a literal returns an
    automaton of exactly two states, both allocated by the call: its
    initial state and its one accepting state, with exactly one
    transition between them, from the initial state to the accepting
    state under the symbol of the literal. *)
Theorem literal_automaton (a : N) (w : World) :
  current_label w ≤ 65 + 26 - 1 →
  ∃ A w' f,
    parse_regex_token (LiteralToken a) w = (Ok A, w') ∧
    length (heap w') = (length (heap w) + 2)%nat ∧
    fresh w w' (initial A) ∧ fresh w w' f ∧ f ≠ initial A ∧
    accepting A = {[f]} ∧
    collect_reachable_states A w' = (Ok {[initial A; f]}, w') ∧
    (∀ s literal t, fresh w w' s →
       t ∈ delta (heap w') s literal ↔ s = initial A ∧ literal = a ∧ t = f).
Proof.
  intros Hc. eexists _, _, (S (length (heap w))).
  split; [exact (parse_literal_token_ok a w Hc)|]. simpl.
  set (n := length (heap w)).
  set (h' := add_edge n a (S n) _).
  assert (length h' = (n + 2)%nat) as Hlen.
  { unfold h'. rewrite length_add_edge, !length_app. simpl. lia. }
  assert (∀ s literal t, (n ≤ s)%nat →
            t ∈ delta h' s literal ↔ s = n ∧ literal = a ∧ t = S n) as Hdelta.
  { intros s c t Hs. unfold h'. rewrite delta_add_edge.
    2:{ unfold allocated. rewrite !length_app. simpl. lia. }
    rewrite !delta_alloc, (delta_ge (heap w)) by done.
    case_decide; set_solver. }
  assert (∀ s t, reaches h' s t → s = n ∨ s = S n → t = n ∨ t = S n) as Hreach.
  { intros s t Hst. induction Hst as [|s u t [c Hsu] _ IH]; [done|].
    intros Hs. apply IH. apply Hdelta in Hsu; [|lia]. lia. }
  split_and!; [done|unfold fresh, allocated; simpl; lia..|lia|done| |].
  - destruct (collect_reachable_states_spec (mkNFA n {[S n]})
                {| current_label := current_label w + 2; heap := h' |})
      as (R & -> & HR). simpl in HR.
    do 2 f_equal. apply set_eq. intros t. rewrite HR. split.
    + intros [->| ->]%Hreach; set_solver.
    + intros [->%elem_of_singleton| ->%elem_of_singleton]%elem_of_union.
      * apply rtc_refl.
      * apply rtc_once. exists a. by apply Hdelta.
  - intros s c t [Hs _]. by apply Hdelta.
Qed.

(** C5. When building [KleeneStar(T)] returns, it has built [T],
    allocated exactly one state after that, which is the initial state
    of the result and one of its accepting states; the accepting states
    are that state and those of the automaton of [T]; and the
    transitions are those of the automaton of [T] together with an
    [EPSILON] transition to its initial state from the new state and
    from each of its accepting states. *)
Theorem kleene_star_structure (T : RegexToken) (w : World) (A : NFA) (w' : World) :
  parse_regex_token (KleeneStarToken T) w = (Ok A, w') →
  ∃ root w1,
    parse_regex_token T w = (Ok root, w1) ∧
    length (heap w') = S (length (heap w1)) ∧
    current_label w' = current_label w1 + 1 ∧
    initial A = length (heap w1) ∧
    initial A ∈ accepting A ∧
    accepting A = {[initial A]} ∪ accepting root ∧
    (initial A ∉ accepting root) ∧
    initial root ∈ delta (heap w') (initial A) EPSILON ∧
    (∀ s, s ∈ accepting root → initial root ∈ delta (heap w') s EPSILON) ∧
    (∀ s literal t,
       t ∈ delta (heap w') s literal ↔
       t ∈ delta (heap w1) s literal ∨
       (s = initial A ∨ s ∈ accepting root) ∧ literal = EPSILON ∧ t = initial root).
Proof.
  change (parse_regex_token (KleeneStarToken T))
    with (parse_kleene_star_token parse_regex_token T).
  intros (root & w1 & Hroot & Hstar)%bind_ok_inv. exists root, w1.
  pose proof (wp_ok _ _ _ _ _ _ (parse_regex_token_built T w) Hroot)
    as (_ & k & _ & Hb).
  assert (∀ s, s ∈ accepting root → allocated (heap w1) s) as Hacc
    by (intros s; by eapply built_allocated).
  pose proof (wp_ok _ _ _ _ _ _ (kleene_star_of_spec root w1 Hacc) Hstar)
    as (Hc & -> & Hc' & Hl & _ & Hd).
  simpl in *. rewrite length_app in Hl. simpl in Hl.
  assert (∀ s literal t,
    t ∈ delta (heap w') s literal ↔
    t ∈ delta (heap w1) s literal ∨
    (s = length (heap w1) ∨ s ∈ accepting root) ∧ literal = EPSILON ∧ t = initial root)
    as Hd'.
  { intros s c t. by rewrite Hd, delta_alloc. }
  split_and!; [done|lia|done|done|set_solver|done| |..|done].
  - intros Hn%Hacc. unfold allocated in Hn. lia.
  - apply Hd'. right. auto.
  - intros s Hs. apply Hd'. right. auto.
Qed.

(** C6. When building [Concat(L, R)] returns, it has built [L] and then
    [R] and allocated no state after that; the result has the initial
    state of the automaton of [L] and the accepting states of the
    automaton of [R]; each accepting state of the automaton of [L] has
    got one [EPSILON] transition it did not have, to the initial state of
    the automaton of [R]; and nothing else has changed. *)
Theorem concat_structure (L R : RegexToken) (w : World) (A : NFA) (w' : World) :
  parse_regex_token (ConcatToken L R) w = (Ok A, w') →
  ∃ left w1 right w2,
    parse_regex_token L w = (Ok left, w1) ∧
    parse_regex_token R w1 = (Ok right, w2) ∧
    length (heap w') = length (heap w2) ∧
    current_label w' = current_label w2 ∧
    initial A = initial left ∧
    accepting A = accepting right ∧
    (∀ s, s ∈ accepting left →
       (initial right ∉ delta (heap w2) s EPSILON) ∧
       delta (heap w') s EPSILON = delta (heap w2) s EPSILON ∪ {[initial right]}) ∧
    (∀ s literal, ¬ (s ∈ accepting left ∧ literal = EPSILON) →
       delta (heap w') s literal = delta (heap w2) s literal) ∧
    (∀ s, s ∉ accepting left → heap w' !! s = heap w2 !! s).
Proof.
  change (parse_regex_token (ConcatToken L R))
    with (parse_concat_token parse_regex_token L R).
  intros (left & w1 & Hleft & (right & w2 & Hright & Hcat)%bind_ok_inv)%bind_ok_inv.
  exists left, w1, right, w2.
  pose proof (wp_ok _ _ _ _ _ _ (parse_regex_token_built L w) Hleft)
    as (_ & k1 & _ & Hb1).
  pose proof (wp_ok _ _ _ _ _ _ (parse_regex_token_built R w1) Hright)
    as (_ & k2 & _ & Hb2).
  destruct Hb1 as (Hg1 & Hi1 & Ha1). destruct Hb2 as (Hg2 & Hi2 & Ha2).
  pose proof Hg1 as (Hl1 & _ & _ & Hd1). pose proof Hg2 as (Hl2 & _ & Hf2 & _).
  assert (∀ s, s ∈ accepting left → allocated (heap w2) s) as Hacc.
  { intros s Hs%Ha1. alia. }
  pose proof (wp_ok _ _ _ _ _ _ (concat_of_spec left right w2 Hacc) Hcat)
    as (-> & Hc' & Hl & Hf & Hd).
  split_and!; [done..| | |].
  - intros s Hs. split.
    + pose proof (Ha1 s Hs) as Hfresh.
      rewrite (delta_lookup (heap w1)) by (apply Hf2; alia).
      intros Hin. apply Hd1 in Hin; alia.
    + apply set_eq. intros t. rewrite Hd. set_solver.
  - intros s c Hs. apply set_eq. intros t. rewrite Hd. naive_solver.
  - intros s Hs. apply Hf. naive_solver.
Qed.

(** C2, as amended. In every automaton built from a tree without an
    intersection node, that is by the literal, union, concatenation and
    star constructions, the accepting states are among the states the
    traversal reaches from the initial state. *)
Theorem accepting_reachable (token : RegexToken) (w : World) (A : NFA) (w' : World) :
  intersection_free token = true →
  parse_regex_token token w = (Ok A, w') →
  ∃ R, collect_reachable_states A w' = (Ok R, w') ∧ accepting A ⊆ R.
Proof.
  intros Hfree Heq.
  destruct (collect_reachable_states_spec A w') as (R & HeqR & HR).
  exists R. split; [done|]. intros s Hs. apply HR.
  by eapply intersection_free_accepting_reached.
Qed.

(** C10. The product construction leaves every state that existed
    before it as it was, with the same transition table, the states of
    both operands among them; the initial state of the product is
    allocated by the construction, and every transition that leaves a
    state allocated by it leads to a state allocated by it: the states
    the product automaton reaches, and the transitions between them, are
    all new. *)
Theorem intersect_frame (left right : NFA) (w : World) (P : NFA) (w' : World) :
  closed (heap w) →
  allocated (heap w) (initial left) → allocated (heap w) (initial right) →
  intersect left right w = (Ok P, w') →
  (∀ s, allocated (heap w) s →
     heap w' !! s = heap w !! s ∧
     transitions_of (heap w') s = transitions_of (heap w) s) ∧
  fresh w w' (initial P) ∧
  (∀ s, s ∈ accepting P → fresh w w' s) ∧
  (∀ s literal t, fresh w w' s → t ∈ delta (heap w') s literal → fresh w w' t) ∧
  (∀ s, reaches (heap w') (initial P) s → fresh w w' s).
Proof.
  intros Hcl Hl Hr Heq.
  assert (∀ A, allocated (heap w) (initial A) →
            ∀ t, reaches (heap w) (initial A) t → allocated (heap w) t) as Hreach.
  { intros A HA t Ht. by eapply closed_reaches_allocated. }
  pose proof (wp_ok _ _ _ _ _ _
                (intersect_spec left right w (Hreach _ Hl) (Hreach _ Hr)) Heq)
    as (ps & RL & RR & _ & _ & _ & Hg & Hprod).
  pose proof Hprod as (_ & _ & _ & _ & Hinit & Hacc & _).
  assert (fresh w w' (initial P)) as Hi by by eapply product_of_fresh.
  pose proof Hg as (Hlen & _ & Hf & Hd). split_and!.
  - intros s Hs. split; [by apply Hf|]. by apply transitions_of_lookup, Hf.
  - done.
  - intros p (l & r & Hin & _)%Hacc. by eapply product_of_fresh.
  - intros s c t [Hs _] Ht. by apply Hd in Ht.
  - intros s Hs. by eapply grown_reaches_fresh.
Qed.

(** C1. When the product construction returns, the automaton it returns
    accepts a word if and only if both operands accept it; the operands
    accept after the construction the words they accepted before. *)
Theorem intersect_language (left right : NFA) (w : World) (P : NFA) (w' : World) :
  closed (heap w) →
  allocated (heap w) (initial left) → allocated (heap w) (initial right) →
  intersect left right w = (Ok P, w') →
  ∀ word,
    (accepts (heap w') P word ↔
     accepts (heap w) left word ∧ accepts (heap w) right word) ∧
    (accepts (heap w') left word ↔ accepts (heap w) left word) ∧
    (accepts (heap w') right word ↔ accepts (heap w) right word).
Proof.
  intros Hcl Hl Hr Heq word.
  assert (∀ A, allocated (heap w) (initial A) →
            ∀ t, reaches (heap w) (initial A) t → allocated (heap w) t) as Hreach.
  { intros A HA t Ht. by eapply closed_reaches_allocated. }
  pose proof (wp_ok _ _ _ _ _ _
                (intersect_spec left right w (Hreach _ Hl) (Hreach _ Hr)) Heq)
    as (ps & RL & RR & _ & _ & _ & (_ & _ & Hf & _) & Hprod).
  split_and!.
  - by eapply product_language.
  - unfold accepts. by setoid_rewrite (run_old (heap w) (heap w')).
  - unfold accepts. by setoid_rewrite (run_old (heap w) (heap w')).
Qed.


End Specification.

(** Fourteen literals in a row need twenty-eight states: from the world
    of a fresh module the builder runs out of labels. *)
Lemma fourteen_literals_exhaust_labels :
  (@parse_regex_token canonical_order fourteen_literals initial_world).1
  = Raise LabelsExhausted.
Proof. vm_compute. reflexivity. Qed.

Lemma allocation_within_ceiling_witness :
  current_label initial_world + Z.of_nat (states_bound (LiteralToken chr_a)) ≤ 65 + 26 ∧
  ((∀ e w', @parse_regex_token canonical_order (LiteralToken chr_a) initial_world
            = (Raise e, w') → e ≠ LabelsExhausted) ∧
   (recognized (LiteralToken chr_a) = true →
    ∃ A w', @parse_regex_token canonical_order (LiteralToken chr_a) initial_world
            = (Ok A, w'))).
Proof.
  assert (current_label initial_world + Z.of_nat (states_bound (LiteralToken chr_a))
          ≤ 65 + 26) as Hroom by (vm_compute; discriminate).
  split; [exact Hroom|].
  exact (allocation_within_ceiling (LiteralToken chr_a) initial_world Hroom).
Defined.

(** In the automaton of [a∩b] the state of the couple of the two
    accepting states is accepting, and no transition leads to it. *)
Lemma a_and_b_accepting_unreachable :
  let m := @parse_regex_token canonical_order
             (IntersectionToken (LiteralToken chr_a) (LiteralToken chr_b)) in
  m initial_world = (Ok (value_of m), world_of m) ∧
  ∃ R, @collect_reachable_states canonical_order (value_of m) (world_of m)
       = (Ok R, world_of m) ∧
       ¬ accepting (value_of m) ⊆ R.
Proof.
  split; [vm_compute; reflexivity|].
  exists {[6%nat]}. split; [vm_compute; reflexivity|].
  intros Hsub. specialize (Hsub 5%nat).
  assert (5%nat ∈ ({[6%nat]} : gset nat)) as Hin
    by (apply Hsub; vm_compute; set_solver).
  set_solver.
Qed.

Lemma accepting_reachable_witness :
  let m := @parse_regex_token canonical_order
             (ConcatToken (LiteralToken chr_a) (KleeneStarToken (LiteralToken chr_b))) in
  ∃ R, @collect_reachable_states canonical_order (value_of m) (world_of m)
       = (Ok R, world_of m) ∧
       accepting (value_of m) ⊆ R.
Proof.
  intros m.
  apply (accepting_reachable (order:=canonical_order)
           (ConcatToken (LiteralToken chr_a) (KleeneStarToken (LiteralToken chr_b)))
           initial_world).
  - vm_compute. reflexivity.
  - vm_compute. reflexivity.
Defined.

Lemma literal_automaton_witness :
  current_label initial_world ≤ 65 + 26 - 1 ∧
  ∃ A w' f,
    @parse_regex_token canonical_order (LiteralToken chr_a) initial_world = (Ok A, w') ∧
    accepting A = {[f]} ∧
    @collect_reachable_states canonical_order A w' = (Ok {[initial A; f]}, w').
Proof.
  assert (current_label initial_world ≤ 65 + 26 - 1) as Hroom
    by (vm_compute; discriminate).
  split; [exact Hroom|].
  destruct (literal_automaton (order:=canonical_order) chr_a initial_world Hroom)
    as (A & w' & f & Heq & _ & _ & _ & _ & Hacc & HR & _).
  by exists A, w', f.
Defined.

Lemma kleene_star_structure_witness :
  let m := @parse_regex_token canonical_order star_a in
  m initial_world = (Ok (value_of m), world_of m) ∧
  ∃ root w1,
    @parse_regex_token canonical_order (LiteralToken chr_a) initial_world
      = (Ok root, w1) ∧
    accepting (value_of m) = {[initial (value_of m)]} ∪ accepting root.
Proof.
  intros m.
  assert (m initial_world = (Ok (value_of m), world_of m)) as Heq
    by (vm_compute; reflexivity).
  split; [exact Heq|].
  destruct (kleene_star_structure (order:=canonical_order) (LiteralToken chr_a)
              initial_world (value_of m) (world_of m) Heq)
    as (root & w1 & Hroot & _ & _ & _ & _ & Hacc & _).
  by exists root, w1.
Defined.

Lemma concat_structure_witness :
  let m := @parse_regex_token canonical_order a_then_a in
  m initial_world = (Ok (value_of m), world_of m) ∧
  ∃ left w1 right w2,
    @parse_regex_token canonical_order (LiteralToken chr_a) initial_world
      = (Ok left, w1) ∧
    @parse_regex_token canonical_order (LiteralToken chr_a) w1 = (Ok right, w2) ∧
    length (heap (world_of m)) = length (heap w2) ∧
    initial (value_of m) = initial left ∧
    accepting (value_of m) = accepting right.
Proof.
  intros m.
  assert (m initial_world = (Ok (value_of m), world_of m)) as Heq
    by (vm_compute; reflexivity).
  split; [exact Heq|].
  destruct (concat_structure (order:=canonical_order) (LiteralToken chr_a)
              (LiteralToken chr_a) initial_world (value_of m) (world_of m) Heq)
    as (left & w1 & right & w2 & Hl & Hr & Hlen & _ & Hi & Ha & _).
  by exists left, w1, right, w2.
Defined.

Lemma sample_product_run :
  @intersect canonical_order sample_left sample_right (world_of sample_operands)
  = (Ok (value_of sample_product), world_of sample_product).
Proof. vm_compute. reflexivity. Qed.

Lemma sample_operands_closed : closed (heap (world_of sample_operands)).
Proof.
  apply closed_check_correct.
  apply (bool_decide_unpack (closed_check (heap (world_of sample_operands)))).
  vm_compute. exact I.
Qed.

Lemma intersect_frame_witness :
  heap (world_of sample_product) !! 0%nat = heap (world_of sample_operands) !! 0%nat ∧
  fresh (world_of sample_operands) (world_of sample_product)
        (initial (value_of sample_product)).
Proof.
  destruct (intersect_frame (order:=canonical_order) sample_left sample_right
              (world_of sample_operands) (value_of sample_product)
              (world_of sample_product)) as (Hold & Hinit & _).
  - exact sample_operands_closed.
  - vm_compute. lia.
  - vm_compute. lia.
  - exact sample_product_run.
  - split; [|exact Hinit]. apply Hold. vm_compute. lia.
Defined.

Lemma intersect_language_witness :
  accepts (heap (world_of sample_product)) (value_of sample_product)
          [chr_a; chr_a] ↔
  accepts (heap (world_of sample_operands)) sample_left [chr_a; chr_a] ∧
  accepts (heap (world_of sample_operands)) sample_right [chr_a; chr_a].
Proof.
  destruct (intersect_language (order:=canonical_order) sample_left sample_right
              (world_of sample_operands) (value_of sample_product)
              (world_of sample_product)) with (word := [chr_a; chr_a])
    as (Hword & _).
  - exact sample_operands_closed.
  - vm_compute. lia.
  - vm_compute. lia.
  - exact sample_product_run.
  - exact Hword.
Defined.

